(** * Grouped power and energy sensors (powercalc, sensors/group.py)

    A shallow embedding of [custom_components/powercalc/sensors/group.py]:
    the membership filter of [create_group_sensors], the two factories, the
    [GroupedSensor] callbacks [async_added_to_hass] and [on_state_change],
    and [GroupedEnergySensor.async_reset_energy].

    Python objects are modelled by records passed explicitly, exceptions by
    the [result] type, and the calls into the host (logger, state writes,
    service calls, subscriptions) by a trace of [Effect]s.  Strings are
    sequences of code points below 256. *)

From stdpp Require Import gmap strings list.
From Stdlib Require Import ZArith Lia Ascii.

Local Open Scope Z_scope.

(** ** Exceptions and results *)

Inductive exception :=
| InvalidOperation   (* decimal.InvalidOperation *)
| Overflow           (* decimal.Overflow *)
| ValueError
| OverflowError
| AttributeError.

#[global] Instance exception_eq_dec : EqDecision exception.
Proof. solve_decision. Defined.

Inductive result (A : Type) :=
| Ok (a : A)
| Raise (e : exception).
Arguments Ok {A} a.
Arguments Raise {A} e.

#[global] Instance result_ret : MRet result := @Ok.
#[global] Instance result_bind : MBind result := λ A B k r,
  match r with
  | Ok a => k a
  | Raise e => Raise e
  end.

(** ** Python's [decimal] module in its default context

    [Decimal] values are sign, coefficient and exponent, or a special value.
    The operations are those of the General Decimal Arithmetic
    specification as the module implements them, for the context the
    interpreter starts with: precision 28, ROUND_HALF_EVEN, Emax 999999,
    Emin -999999, no clamping, traps on InvalidOperation and Overflow (the
    other signals only set flags and are not modelled). *)

Module Dec.

Definition prec : Z := 28.
Definition Emax : Z := 999999.
Definition Emin : Z := -999999.
Definition Etiny : Z := Emin - prec + 1.
Definition Etop : Z := Emax - prec + 1.

(** The limits of the C implementation for an exact conversion. *)
Definition MAX_EMAX : Z := 999999999999999999.
Definition MIN_ETINY : Z := -1999999999999999997.

(** [DFinite s c e] is [(-1)^s * c * 10^e] with [0 <= c]. *)
Inductive Decimal :=
| DFinite (sign : bool) (coeff : Z) (exp : Z)
| DInfinity (sign : bool)
| DNaN (sign : bool) (signaling : bool) (payload : Z).

#[global] Instance Decimal_eq_dec : EqDecision Decimal.
Proof. solve_decision. Defined.

(** [ndigits c] is [len(str(c))] for [0 <= c]. *)
Fixpoint ndigits_fuel (fuel : nat) (c : Z) : Z :=
  match fuel with
  | O => 1
  | S fuel' => if c <? 10 then 1 else 1 + ndigits_fuel fuel' (c / 10)
  end.

Definition ndigits (c : Z) : Z := ndigits_fuel (Z.to_nat (Z.log2 c)) c.

Definition signed (s : bool) (c : Z) : Z := if s then - c else c.

(** [c / 10^r] rounded to the nearest integer, ties to even
    ([_round_half_even] on the digits of [c], keeping all but the last
    [r]). *)
Definition round_half_even (c r : Z) : Z :=
  let p := 10 ^ r in
  let q := c / p in
  let m := c mod p in
  if (p <? 2 * m) || ((2 * m =? p) && Z.odd q) then q + 1 else q.

(** [Decimal._rescale(exp, ROUND_HALF_EVEN)] on a finite value. *)
Definition rescale (s : bool) (c e : Z) (exp : Z) : bool * Z * Z :=
  if c =? 0 then (s, 0, exp)
  else if exp <=? e then (s, c * 10 ^ (e - exp), exp)
  else (s, round_half_even c (exp - e), exp).

(** [Decimal._fix(context)] on a finite value. *)
Definition fix_finite (s : bool) (c e : Z) : result Decimal :=
  if c =? 0 then Ok (DFinite s 0 (Z.min (Z.max e Etiny) Emax))
  else
    let exp_min := ndigits c + e - prec in
    if Etop <? exp_min then Raise Overflow
    else
      let exp_min := Z.max exp_min Etiny in
      if e <? exp_min then
        let coeff := round_half_even c (exp_min - e) in
        let '(coeff, exp_min) :=
          if 10 ^ prec <=? coeff then (coeff / 10, exp_min + 1)
          else (coeff, exp_min) in
        if Etop <? exp_min then Raise Overflow
        else Ok (DFinite s coeff exp_min)
      else Ok (DFinite s c e).

(** [Decimal._fix_nan]: the payload keeps its last [prec] digits. *)
Definition fix_nan (s : bool) (payload : Z) : Decimal :=
  DNaN s false (payload mod 10 ^ prec).

(** [Decimal._check_nans(other)]: a signaling NaN raises, a quiet NaN is
    the answer; [None] when neither operand is a NaN. *)
Definition check_nans (a b : Decimal) : option (result Decimal) :=
  match a, b with
  | DNaN _ true _, _ => Some (Raise InvalidOperation)
  | _, DNaN _ true _ => Some (Raise InvalidOperation)
  | DNaN s false p, _ => Some (Ok (fix_nan s p))
  | _, DNaN s false p => Some (Ok (fix_nan s p))
  | _, _ => None
  end.

(** [Decimal.__add__]: the exact sum at the smaller exponent, then [_fix]. *)
Definition add (a b : Decimal) : result Decimal :=
  match check_nans a b with
  | Some r => r
  | None =>
    match a, b with
    | DFinite s1 c1 e1, DFinite s2 c2 e2 =>
      let e := Z.min e1 e2 in
      let v := signed s1 c1 * 10 ^ (e1 - e) + signed s2 c2 * 10 ^ (e2 - e) in
      if v =? 0 then fix_finite (s1 && s2) 0 e
      else fix_finite (v <? 0) (Z.abs v) e
    | DInfinity s1, DInfinity s2 =>
      if bool_decide (s1 = s2) then Ok a else Raise InvalidOperation
    | DInfinity _, _ => Ok a
    | _, _ => Ok b
    end
  end.

(** [Decimal.quantize(Decimal((0, (1,), exp)))]. *)
Definition quantize (a : Decimal) (exp : Z) : result Decimal :=
  match a with
  | DNaN _ true _ => Raise InvalidOperation
  | DNaN s false p => Ok (fix_nan s p)
  | DInfinity _ => Raise InvalidOperation
  | DFinite s c e =>
    if negb ((Etiny <=? exp) && (exp <=? Emax)) then Raise InvalidOperation
    else if c =? 0 then fix_finite s 0 exp
    else
      let adjusted := ndigits c + e - 1 in
      if Emax <? adjusted then Raise InvalidOperation
      else if prec <? adjusted - exp + 1 then Raise InvalidOperation
      else
        let '(s', c', e') := rescale s c e exp in
        if Emax <? ndigits c' + e' - 1 then Raise InvalidOperation
        else if prec <? ndigits c' then Raise InvalidOperation
        else fix_finite s' c' e'
  end.

(** [Decimal.__round__(n)] with [n] an [int]: the C implementation
    converts [n] to a [ssize_t] of 64 bits first, which raises
    [OverflowError] for an [n] that does not fit. *)
Definition round_ndigits (a : Decimal) (n : Z) : result Decimal :=
  if (n <? - 2 ^ 63) || (2 ^ 63 <=? n) then Raise OverflowError
  else quantize a (- n).

(** [Decimal.__round__()] without [n]: the nearest [int]. *)
Definition round_int (a : Decimal) : result Z :=
  match a with
  | DNaN _ _ _ => Raise ValueError
  | DInfinity _ => Raise OverflowError
  | DFinite s c e =>
    let '(s', c', _) := rescale s c e 0 in Ok (signed s' c')
  end.

(** *** [Decimal(str)] *)

Definition code (a : ascii) : Z := Z.of_N (N_of_ascii a).

(** [str.isspace] on the code points below 256. *)
Definition is_space (a : ascii) : bool :=
  let n := code a in
  ((9 <=? n) && (n <=? 13)) || ((28 <=? n) && (n <=? 32))
  || (n =? 133) || (n =? 160).

Definition digit_of (a : ascii) : option Z :=
  let n := code a in
  if (48 <=? n) && (n <=? 57) then Some (n - 48) else None.

Definition lower (a : ascii) : ascii :=
  let n := code a in
  if (65 <=? n) && (n <=? 90) then ascii_of_N (Z.to_N (n + 32)) else a.

Fixpoint lstrip (l : list ascii) : list ascii :=
  match l with
  | a :: l' => if is_space a then lstrip l' else l
  | [] => []
  end.

Definition strip (l : list ascii) : list ascii :=
  rev (lstrip (rev (lstrip l))).

Definition is_underscore (a : ascii) : bool := code a =? 95.

(** Reads the longest prefix of digits: the number read after [acc], how
    many digits there were, and the rest. *)
Fixpoint span_digits (acc n : Z) (l : list ascii) : Z * Z * list ascii :=
  match l with
  | a :: l' =>
    match digit_of a with
    | Some d => span_digits (acc * 10 + d) (n + 1) l'
    | None => (acc, n, l)
    end
  | [] => (acc, n, [])
  end.

(** The exponent part [E[+-]?\d+] up to the end of the string. *)
Definition parse_exponent (l : list ascii) : option Z :=
  match l with
  | a :: l' =>
    if code (lower a) =? 101 then
      let '(neg, l'') :=
        match l' with
        | b :: r => if code b =? 45 then (true, r)
                    else if code b =? 43 then (false, r) else (false, l')
        | [] => (false, l')
        end in
      match span_digits 0 0 l'' with
      | (x, n, []) => if 0 <? n then Some (signed neg x) else None
      | _ => None
      end
    else None
  | [] => Some 0
  end.

(** A number: digits with an optional fraction and an optional exponent. *)
Definition parse_number (l : list ascii) : option (Z * Z) :=
  let '(ci, ni, r1) := span_digits 0 0 l in
  let '(c, nf, r2) :=
    match r1 with
    | a :: r => if code a =? 46 then span_digits ci 0 r else (ci, 0, r1)
    | [] => (ci, 0, r1)
    end in
  if ni + nf =? 0 then None
  else
    match parse_exponent r2 with
    | Some x => Some (c, x - nf)
    | None => None
    end.

Definition lowered (l : list ascii) : list Z := map (λ a, code (lower a)) l.

(** [Inf], [Infinity], [NaN] and [sNaN] with an optional payload, in any
    case. *)
Definition parse_special (s : bool) (l : list ascii) : option Decimal :=
  let w := lowered l in
  if bool_decide (w = [105; 110; 102])
     || bool_decide (w = [105; 110; 102; 105; 110; 105; 116; 121])
  then Some (DInfinity s)
  else
    let '(sig, l') :=
      match l with
      | a :: r => if code (lower a) =? 115 then (true, r) else (false, l)
      | [] => (false, l)
      end in
    if bool_decide (lowered (take 3 l') = [110; 97; 110]) then
      match span_digits 0 0 (drop 3 l') with
      | (p, _, []) => Some (DNaN s sig p)
      | _ => None
      end
    else None.

(** An exact conversion is refused when the value does not fit the widest
    context of the C implementation. *)
Definition in_range (c e : Z) : bool :=
  if c =? 0 then (MIN_ETINY <=? e) && (e <=? MAX_EMAX)
  else (MIN_ETINY <=? e) && (ndigits c + e - 1 <=? MAX_EMAX).

(** [Decimal(value)] for a [str]: leading and trailing white space is
    stripped, underscores are dropped, and something that is not a numeric
    string raises [InvalidOperation]. *)
Definition of_list (l : list ascii) : result Decimal :=
  let l := List.filter (λ a, negb (is_underscore a)) (strip l) in
  let '(s, body) :=
    match l with
    | a :: r => if code a =? 45 then (true, r)
                else if code a =? 43 then (false, r) else (false, l)
    | [] => (false, l)
    end in
  match parse_number body with
  | Some (c, e) =>
    if in_range c e then Ok (DFinite s c e) else Raise InvalidOperation
  | None =>
    match parse_special s body with
    | Some d => Ok d
    | None => Raise InvalidOperation
    end
  end.

Definition of_string (s : string) : result Decimal :=
  of_list (String.list_ascii_of_string s).

Definition of_int (z : Z) : Decimal := DFinite (z <? 0) (Z.abs z) 0.

End Dec.

(** ** Python values and the builtins [sum] and [round] *)

Inductive number :=
| NInt (z : Z)
| NDecimal (d : Dec.Decimal).

(** What [_attr_native_value] holds: a number, or the restored state
    string. *)
Inductive pyvalue :=
| PyInt (z : Z)
| PyDecimal (d : Dec.Decimal)
| PyStr (s : string).

#[global] Instance pyvalue_eq_dec : EqDecision pyvalue.
Proof. solve_decision. Defined.

Definition of_number (n : number) : pyvalue :=
  match n with
  | NInt z => PyInt z
  | NDecimal d => PyDecimal d
  end.

(** [acc + d]: for an [int] accumulator Python calls [Decimal.__radd__],
    which is [Decimal.__add__] of [d] and the converted [int]. *)
Definition py_add (acc : number) (d : Dec.Decimal) : result number :=
  match acc with
  | NInt z => r ← Dec.add d (Dec.of_int z); Ok (NDecimal r)
  | NDecimal a => r ← Dec.add a d; Ok (NDecimal r)
  end.

(** [sum(Decimal(s) for s in states)] continued from [acc]: the generator
    is consumed lazily, each string is converted when its turn comes. *)
Fixpoint py_sum (acc : number) (states : list string) : result number :=
  match states with
  | [] => Ok acc
  | s :: states' =>
    d ← Dec.of_string s;
    acc' ← py_add acc d;
    py_sum acc' states'
  end.

(** [int.__round__(ndigits)]: unchanged for [ndigits >= 0], otherwise the
    nearest multiple of [10^-ndigits], ties to even. *)
Definition int_round (z n : Z) : Z :=
  if 0 <=? n then z
  else Dec.signed (z <? 0) (Dec.round_half_even (Z.abs z) (- n) * 10 ^ (- n)).

(** [round(x, ndigits)], [ndigits] being an [int] or [None]. *)
Definition py_round (x : number) (ndigits : option Z) : result number :=
  match x, ndigits with
  | NInt z, None => Ok (NInt z)
  | NInt z, Some n => Ok (NInt (int_round z n))
  | NDecimal d, None => z ← Dec.round_int d; Ok (NInt z)
  | NDecimal d, Some n => r ← Dec.round_ndigits d n; Ok (NDecimal r)
  end.

(** [str.lower] on the code points below 256: the letters A to Z and the
    capital letters from 192 to 222, without the sign at 215, move up
    by 32. *)
Definition chr_lower (a : ascii) : ascii :=
  let n := Dec.code a in
  if ((65 <=? n) && (n <=? 90))
     || ((192 <=? n) && (n <=? 222) && negb (n =? 215))
  then ascii_of_N (Z.to_N (n + 32)) else a.

Fixpoint str_lower (s : string) : string :=
  match s with
  | EmptyString => EmptyString
  | String a s' => String (chr_lower a) (str_lower s')
  end.

(** [list.remove(x)]: drops the first element equal to [x]; [None] stands
    for the [ValueError] raised when there is none. *)
Fixpoint list_remove {A} `{EqDecision A} (x : A) (l : list A) : option (list A) :=
  match l with
  | [] => None
  | y :: l' =>
    if decide (x = y) then Some l'
    else match list_remove x l' with
         | Some r => Some (y :: r)
         | None => None
         end
  end.

(** ** Constants *)

(** The values of [homeassistant.const]. *)
Definition ATTR_ENTITY_ID : string := "entity_id".
Definition ATTR_UNIT_OF_MEASUREMENT : string := "unit_of_measurement".
Definition ENERGY_KILO_WATT_HOUR : string := "kWh".
Definition ENERGY_MEGA_WATT_HOUR : string := "MWh".
Definition ENERGY_WATT_HOUR : string := "Wh".
Definition POWER_WATT : string := "W".
Definition STATE_UNAVAILABLE : string := "unavailable".
Definition STATE_UNKNOWN : string := "unknown".

(** The constants of [custom_components.powercalc.const] that name a
    service: their values are not in this file, so they are kept as
    names. *)
Inductive PowercalcConst := DOMAIN | SERVICE_RESET_ENERGY.

(** Modelled from the spec: the enumeration [powercalc.const.UnitPrefix],
    which is not in the source file; an energy aggregate has one of three
    scale variants. *)
Inductive UnitPrefix := NONE | KILO | MEGA.

Inductive SensorDeviceClass := POWER | ENERGY.
Inductive SensorStateClass := MEASUREMENT | TOTAL.

(** The entries of the [sensor_config] dictionary that the file reads;
    [None] is a missing key, so a field is [sensor_config.get(KEY)]. *)
Record SensorConfig := {
  CONF_UNIQUE_ID : option string;
  CONF_POWER_SENSOR_PRECISION : option Z;
  CONF_ENERGY_SENSOR_PRECISION : option Z;
  CONF_ENERGY_SENSOR_UNIT_PREFIX : option UnitPrefix;
}.

(** ** The host's state machine *)

Module State.
(** [homeassistant.core.State]: [attributes] is the attribute
    dictionary. *)
Record State := mk {
  entity_id : string;
  state : string;
  attributes : gmap string string;
}.

#[global] Instance State_eq_dec : EqDecision State.
Proof. solve_decision. Defined.
End State.
Abbreviation State := State.State.

(** [hass.states]: for each entity id its state string and attributes.
    The state machine keeps its states under ids in lower case, and
    [hass.states.get(entity_id)] looks up [entity_id.lower()]: it is the
    [State] stored under that id, which carries the id it is stored under,
    or [None]. *)
Abbreviation StateMachine := (gmap string (string * gmap string string)).

Definition states_get (hass : StateMachine) (entity_id : string) : option State :=
  match hass !! str_lower entity_id with
  | Some (st, attrs) => Some (State.mk (str_lower entity_id) st attrs)
  | None => None
  end.

(** ** [GroupedSensor] *)

(** The attributes of a [GroupedSensor] instance.  [_entities] is the one
    list object that [_attr_extra_state_attributes] publishes under
    [ATTR_ENTITIES]; an unset or [None] attribute is [None].  For
    [_attr_native_unit_of_measurement], which no class of the instance
    defines, [None] is the attribute that was never assigned: reading it
    raises [AttributeError]. *)
Record GroupedSensor := {
  _attr_name : string;
  _entities : list string;
  _rounding_digits : option Z;
  _sensor_config : SensorConfig;
  _attr_unique_id : option string;
  entity_id : string;
  _attr_device_class : SensorDeviceClass;
  _attr_state_class : SensorStateClass;
  _attr_native_unit_of_measurement : option string;
  _attr_native_value : option pyvalue;
  _attr_last_reset : option Z;
}.

Definition set_entities (entities : list string) (self : GroupedSensor) : GroupedSensor :=
  {| _attr_name := _attr_name self;
     _entities := entities;
     _rounding_digits := _rounding_digits self;
     _sensor_config := _sensor_config self;
     _attr_unique_id := _attr_unique_id self;
     entity_id := entity_id self;
     _attr_device_class := _attr_device_class self;
     _attr_state_class := _attr_state_class self;
     _attr_native_unit_of_measurement := _attr_native_unit_of_measurement self;
     _attr_native_value := _attr_native_value self;
     _attr_last_reset := _attr_last_reset self |}.

Definition set_native_value (v : pyvalue) (self : GroupedSensor) : GroupedSensor :=
  {| _attr_name := _attr_name self;
     _entities := _entities self;
     _rounding_digits := _rounding_digits self;
     _sensor_config := _sensor_config self;
     _attr_unique_id := _attr_unique_id self;
     entity_id := entity_id self;
     _attr_device_class := _attr_device_class self;
     _attr_state_class := _attr_state_class self;
     _attr_native_unit_of_measurement := _attr_native_unit_of_measurement self;
     _attr_native_value := Some v;
     _attr_last_reset := _attr_last_reset self |}.

Definition set_last_reset (t : Z) (self : GroupedSensor) : GroupedSensor :=
  {| _attr_name := _attr_name self;
     _entities := _entities self;
     _rounding_digits := _rounding_digits self;
     _sensor_config := _sensor_config self;
     _attr_unique_id := _attr_unique_id self;
     entity_id := entity_id self;
     _attr_device_class := _attr_device_class self;
     _attr_state_class := _attr_state_class self;
     _attr_native_unit_of_measurement := _attr_native_unit_of_measurement self;
     _attr_native_value := _attr_native_value self;
     _attr_last_reset := Some t |}.

(** [_attr_extra_state_attributes]: the live member list and the group
    marker [ATTR_IS_GROUP]. *)
Definition extra_state_attributes (self : GroupedSensor) : list string * bool :=
  (_entities self, true).

(** What a callback does to the host, in order. *)
Inductive Effect :=
| LogDebug (msg : string)
| LogError (msg : string)
| TrackStateChangeEvent (entity_ids : list string)
| ScheduleUpdateHaState (force_refresh : bool)
| WriteHaState (snapshot : GroupedSensor)
| CreateTask (domain service : PowercalcConst) (service_data : gmap string string).

(** The result of a callback: the instance afterwards, the effects issued
    and the exception that ended it, if any. *)
Record Outcome := {
  self_after : GroupedSensor;
  effects : list Effect;
  raised : option exception;
}.

(** [str(x)] for an optional string, as an f-string formats it. *)
Definition format_opt (x : option string) : string :=
  match x with
  | Some s => s
  | None => "None"
  end.

Definition mismatch_message (self : GroupedSensor) (state : State)
    (unit_of_measurement : option string) : string :=
  "Group member '" +:+ State.entity_id state +:+
  "' has another unit of measurement '" +:+ format_opt unit_of_measurement +:+
  "' than the group '" +:+ entity_id self +:+ "' which has '" +:+
  format_opt (_attr_native_unit_of_measurement self) +:+
  "', this is not supported yet. Removing this entity from the total sum.".

(** Where the loop over [available_states] stands: the two lists it
    mutates, the log, and the exception that ended it, if any. *)
Record Removal := {
  rem_available : list State;
  rem_entities : list string;
  rem_log : list Effect;
  rem_raised : option exception;
}.

(** [for state in available_states: ...] of [on_state_change].  The list
    iterator holds an index [i] into the list as it is now and stops when
    [i] is past its end; the body removes from that same list.  The
    comparison reads [self._attr_native_unit_of_measurement], which raises
    [AttributeError] on an instance that never assigned it.  [None] is
    running out of [fuel]. *)
Fixpoint unit_check (self : GroupedSensor) (fuel : nat) (i : nat)
    (available_states : list State) (entities : list string)
    (log : list Effect) : option Removal :=
  match fuel with
  | O => None
  | S fuel' =>
    match available_states !! i with
    | None => Some (Build_Removal available_states entities log None)
    | Some state =>
      let unit_of_measurement :=
        State.attributes state !! ATTR_UNIT_OF_MEASUREMENT in
      match _attr_native_unit_of_measurement self with
      | None =>
        Some (Build_Removal available_states entities log (Some AttributeError))
      | Some native_unit =>
        if decide (unit_of_measurement ≠ Some native_unit)
        then
          let log' :=
            log ++ [LogError (mismatch_message self state unit_of_measurement)] in
          match list_remove state available_states with
          | None =>
            Some (Build_Removal available_states entities log' (Some ValueError))
          | Some available' =>
            match list_remove (State.entity_id state) entities with
            | None => Some (Build_Removal available' entities log' (Some ValueError))
            | Some entities' =>
              unit_check self fuel' (S i) available' entities' log'
            end
          end
        else unit_check self fuel' (S i) available_states entities log
      end
    end
  end.

Definition ignored_states : list string := [STATE_UNAVAILABLE; STATE_UNKNOWN].

(** The states that [on_state_change] collects before the loop. *)
Definition collect_available (hass : StateMachine) (entities : list string) : list State :=
  let all_states := map (states_get hass) entities in
  let states := omap id all_states in
  filter (λ state, State.state state ∉ ignored_states) states.

(** The loop run from the start; a loop over [n] elements that only ever
    removes takes at most [n] steps (lemma [unit_check_fuel]). *)
Definition run_unit_check (self : GroupedSensor) (available_states : list State) : Removal :=
  default (Build_Removal available_states (_entities self) [] None)
    (unit_check self (S (length available_states)) 0 available_states
       (_entities self) []).

(** [GroupedSensor.on_state_change(event)].  The removals from
    [self._entities] are made in place and so outlive an exception. *)
Definition on_state_change (hass : StateMachine) (self : GroupedSensor)
    (event : string) : Outcome :=
  let available_states := collect_available hass (_entities self) in
  let r := run_unit_check self available_states in
  let self1 := set_entities (rem_entities r) self in
  match rem_raised r with
  | Some e => Build_Outcome self1 (rem_log r) (Some e)
  | None =>
    match
      summed ← py_sum (NInt 0) (map State.state (rem_available r));
      py_round summed (_rounding_digits self)
    with
    | Raise e => Build_Outcome self1 (rem_log r) (Some e)
    | Ok v =>
      Build_Outcome (set_native_value (of_number v) self1)
        (rem_log r ++ [ScheduleUpdateHaState true]) None
    end
  end.

(** [GroupedSensor.async_added_to_hass()]; [last_state] is what
    [async_get_last_state()] returns. *)
Definition async_added_to_hass (last_state : option State)
    (self : GroupedSensor) : Outcome :=
  let self1 :=
    match last_state with
    | Some state => set_native_value (PyStr (State.state state)) self
    | None => self
    end in
  Build_Outcome self1 [TrackStateChangeEvent (_entities self1)] None.

(** [GroupedEnergySensor.async_reset_energy()]; [now] is what
    [dt_util.utcnow()] returns.  The service calls are handed to
    [hass.async_create_task] and not awaited. *)
Definition async_reset_energy (now : Z) (self : GroupedSensor) : Outcome :=
  let calls :=
    flat_map (λ entity_id,
      [LogDebug ("Resetting " +:+ entity_id);
       CreateTask DOMAIN SERVICE_RESET_ENERGY {[ATTR_ENTITY_ID := entity_id]}])
      (_entities self) in
  let self1 := set_last_reset now self in
  Build_Outcome self1
    (LogDebug (entity_id self +:+ ": Reset grouped energy sensor")
       :: calls ++ [WriteHaState self1])
    None.

(** ** Construction *)

(** [GroupedSensor.__init__].  An argument left out is the outer [None]:
    [unique_id] then is [None] and [rounding_digits] is 2.  The class
    attributes are those of the subclass. *)
Definition GroupedSensor__init__ (device_class : SensorDeviceClass)
    (state_class : SensorStateClass) (native_unit : option string)
    (name : string) (entities : list string) (entity_id : string)
    (sensor_config : SensorConfig) (unique_id : option (option string))
    (rounding_digits : option (option Z)) : GroupedSensor :=
  {| _attr_name := name;
     _entities := entities;
     _rounding_digits := default (Some 2) rounding_digits;
     _sensor_config := sensor_config;
     _attr_unique_id :=
       match default None unique_id with
       | Some u => if decide (u = "") then None else Some u
       | None => None
       end;
     entity_id := entity_id;
     _attr_device_class := device_class;
     _attr_state_class := state_class;
     _attr_native_unit_of_measurement := native_unit;
     _attr_native_value := None;
     _attr_last_reset := None |}.

Definition GroupedPowerSensor__init__ :=
  GroupedSensor__init__ POWER MEASUREMENT (Some POWER_WATT).

(** [GroupedEnergySensor.__init__]: the unit follows the configured
    prefix; with no prefix configured [_attr_native_unit_of_measurement] is
    not assigned, which is the [None] that [on_state_change] cannot
    read. *)
Definition GroupedEnergySensor__init__ (name : string) (entities : list string)
    (entity_id : string) (sensor_config : SensorConfig)
    (unique_id : option (option string))
    (rounding_digits : option (option Z)) : GroupedSensor :=
  let unit_prefix := CONF_ENERGY_SENSOR_UNIT_PREFIX sensor_config in
  GroupedSensor__init__ ENERGY TOTAL
    match unit_prefix with
    | Some KILO => Some ENERGY_KILO_WATT_HOUR
    | Some NONE => Some ENERGY_WATT_HOUR
    | Some MEGA => Some ENERGY_MEGA_WATT_HOUR
    | None => None
    end
    name entities entity_id sensor_config unique_id rounding_digits.

(** ** The membership filter *)

(** A Python class, by name. *)
Inductive PyClass := Class (name : string).

#[global] Instance PyClass_eq_dec : EqDecision PyClass.
Proof. solve_decision. Defined.

Definition cls_GroupedSensor : PyClass := Class "GroupedSensor".
Definition cls_PowerSensor : PyClass := Class "PowerSensor".
Definition cls_EnergySensor : PyClass := Class "EnergySensor".

(** A candidate entity: its id and the classes it is an instance of. *)
Record Entity := {
  ent_entity_id : string;
  ent_mro : list PyClass;
}.

Definition isinstance (elm : Entity) (cls : PyClass) : bool :=
  bool_decide (cls ∈ ent_mro elm).

(** The list objects holding filters, by address. *)
Abbreviation FilterHeap := (gmap nat (list (Entity → bool))).

(** [_get_filtered_entity_ids_by_class]: [default_filters] is the address
    of the caller's list, [filters] that of the copy, which the two
    [append]s change. *)
Definition _get_filtered_entity_ids_by_class (heap : FilterHeap)
    (all_entities : list Entity) (default_filters : nat)
    (className : PyClass) : FilterHeap * list string :=
  let filters := fresh (dom heap) in
  let heap := <[filters := heap !!! default_filters]> heap in
  let heap :=
    alter (λ l, l ++ [λ elm, negb (isinstance elm cls_GroupedSensor)]) filters heap in
  let heap := alter (λ l, l ++ [λ elm, isinstance elm className]) filters heap in
  (heap,
   map ent_entity_id
     (List.filter (λ x, forallb (λ f, f x) (heap !!! filters)) all_entities)).

Section Factories.
(** The helpers of [.abstract], which are not part of this file. *)
Variable generate_power_sensor_name : SensorConfig → string → string.
Variable generate_energy_sensor_name : SensorConfig → string → string.
Variable generate_power_sensor_entity_id : StateMachine → SensorConfig → string → string.
Variable generate_energy_sensor_entity_id : StateMachine → SensorConfig → string → string.

Definition create_grouped_power_sensor (hass : StateMachine) (group_name : string)
    (sensor_config : SensorConfig) (power_sensor_ids : list string)
    : GroupedSensor * list Effect :=
  let name := generate_power_sensor_name sensor_config group_name in
  let unique_id := CONF_UNIQUE_ID sensor_config in
  let entity_id := generate_power_sensor_entity_id hass sensor_config group_name in
  (GroupedPowerSensor__init__ name power_sensor_ids entity_id sensor_config
     (Some unique_id) (Some (CONF_POWER_SENSOR_PRECISION sensor_config)),
   [LogDebug ("Creating grouped power sensor: " +:+ name)]).

Definition create_grouped_energy_sensor (hass : StateMachine) (group_name : string)
    (sensor_config : SensorConfig) (energy_sensor_ids : list string)
    : GroupedSensor * list Effect :=
  let name := generate_energy_sensor_name sensor_config group_name in
  let unique_id := CONF_UNIQUE_ID sensor_config in
  let energy_unique_id :=
    match unique_id with
    | Some u => if decide (u = "") then None else Some (u +:+ "_energy")
    | None => None
    end in
  let entity_id := generate_energy_sensor_entity_id hass sensor_config group_name in
  (GroupedEnergySensor__init__ name energy_sensor_ids entity_id sensor_config
     (Some energy_unique_id) (Some (CONF_ENERGY_SENSOR_PRECISION sensor_config)),
   [LogDebug ("Creating grouped energy sensor: " +:+ name)]).

(** [create_group_sensors] up to the two grouped sensors; the utility
    meters it appends come from another module. *)
Definition create_group_sensors (heap : FilterHeap) (group_name : string)
    (sensor_config : SensorConfig) (entities : list Entity)
    (hass : StateMachine) (filters : nat)
    : FilterHeap * (GroupedSensor * GroupedSensor) * list Effect :=
  let '(heap, power_sensor_ids) :=
    _get_filtered_entity_ids_by_class heap entities filters cls_PowerSensor in
  let '(power_sensor, log1) :=
    create_grouped_power_sensor hass group_name sensor_config power_sensor_ids in
  let '(heap, energy_sensor_ids) :=
    _get_filtered_entity_ids_by_class heap entities filters cls_EnergySensor in
  let '(energy_sensor, log2) :=
    create_grouped_energy_sensor hass group_name sensor_config energy_sensor_ids in
  (heap, (power_sensor, energy_sensor), log1 ++ log2).
End Factories.

(** * The vocabulary of the properties *)

(** ** States and units *)

Definition unit_of (state : State) : option string :=
  State.attributes state !! ATTR_UNIT_OF_MEASUREMENT.

(** The unit of [state] is the unit of the group. *)
Definition compatible (self : GroupedSensor) (state : State) : Prop :=
  unit_of state = _attr_native_unit_of_measurement self.

#[global] Instance compatible_dec self state : Decision (compatible self state).
Proof. unfold compatible. apply _. Defined.

(** The record that the loop logs for [state]. *)
Definition mismatch_error (self : GroupedSensor) (state : State) : Effect :=
  LogError (mismatch_message self state (unit_of state)).

(** The group has a unit: [_attr_native_unit_of_measurement] was
    assigned. *)
Definition has_unit (self : GroupedSensor) : Prop :=
  is_Some (_attr_native_unit_of_measurement self).

(** The ids of the members are in lower case, as the host issues entity
    ids. *)
Definition lower_case_ids (self : GroupedSensor) : Prop :=
  Forall (λ e, str_lower e = e) (_entities self).

(** The state machine holds a state for the member, under its id in lower
    case, and that state is neither the string "unavailable" nor the string
    "unknown". *)
Definition available (hass : StateMachine) (e : string) : Prop :=
  ∃ st attrs, hass !! str_lower e = Some (st, attrs) ∧
              st ≠ "unavailable" ∧ st ≠ "unknown".

#[global] Instance available_dec hass e : Decision (available hass e).
Proof.
  unfold available. destruct (hass !! str_lower e) as [[st attrs]|].
  - destruct (decide (st ≠ "unavailable" ∧ st ≠ "unknown")) as [[??]|Hn].
    + left. by exists st, attrs.
    + right. intros (st' & attrs' & [= <- <-] & ? & ?). by apply Hn.
  - right. by intros (st' & attrs' & [=] & ?).
Defined.

(** The member has an available state whose unit is not the group's. *)
Definition incompatible_member (hass : StateMachine) (self : GroupedSensor)
    (e : string) : Prop :=
  ∃ state, states_get hass e = Some state ∧
           (State.state state ∉ ignored_states) ∧ ¬ compatible self state.

#[global] Instance incompatible_member_dec hass self e :
  Decision (incompatible_member hass self e).
Proof.
  unfold incompatible_member. destruct (states_get hass e) as [state|].
  - destruct (decide ((State.state state ∉ ignored_states) ∧ ¬ compatible self state))
      as [[??]|Hn].
    + left. by exists state.
    + right. intros (st & [= <-] & ? & ?). by apply Hn.
  - right. by intros (st & [=] & ?).
Defined.

(** The members that count: their state is available and has the unit of
    the group. *)
Definition eligible_states (hass : StateMachine) (self : GroupedSensor) : list State :=
  filter (compatible self) (collect_available hass (_entities self)).

(** No two consecutive states both have another unit than the group. *)
Fixpoint no_adjacent_incompatible (self : GroupedSensor) (l : list State) : Prop :=
  match l with
  | x :: l' =>
    match l' with
    | y :: _ => (compatible self x ∨ compatible self y)
    | [] => True
    end ∧ no_adjacent_incompatible self l'
  | [] => True
  end.

(** ** The steps of one recomputation *)

(** What the loop of one recomputation leaves. *)
Definition unit_check_result (hass : StateMachine) (self : GroupedSensor) : Removal :=
  run_unit_check self (collect_available hass (_entities self)).

(** The sum and the rounding that follow the loop. *)
Definition aggregate (hass : StateMachine) (self : GroupedSensor) : result number :=
  summed ← py_sum (NInt 0)
              (State.state <$> rem_available (unit_check_result hass self));
  py_round summed (_rounding_digits self).

(** ** The operations on an instance after its construction *)

Inductive Operation :=
| OnStateChange (hass : StateMachine) (event : string)
| AddedToHass (last_state : option State)
| ResetEnergy (now : Z).

Definition perform (op : Operation) (self : GroupedSensor) : Outcome :=
  match op with
  | OnStateChange hass event => on_state_change hass self event
  | AddedToHass last_state => async_added_to_hass last_state self
  | ResetEnergy now => async_reset_energy now self
  end.

Definition run (ops : list Operation) (self : GroupedSensor) : GroupedSensor :=
  foldl (λ s op, self_after (perform op s)) self ops.

(** The service calls handed to the event loop, in order. *)
Definition service_calls (effs : list Effect)
    : list (PowercalcConst * PowercalcConst * gmap string string) :=
  omap (λ eff, match eff with
               | CreateTask domain service data => Some (domain, service, data)
               | _ => None
               end) effs.

(** The states written to the state machine, in order. *)
Definition state_writes (effs : list Effect) : list GroupedSensor :=
  omap (λ eff, match eff with
               | WriteHaState snapshot => Some snapshot
               | _ => None
               end) effs.

(** ** The registry *)

(** Modelled from the spec: the external registry to which the aggregate
    is published and its subscribers, which are not part of this file.
    The spec words the publish as "forcing a state-changed notification
    even if the numeric value is unchanged": a publish with the force flag
    set notifies the subscribers of the value whatever value the registry
    held before, one without the flag notifies them when the value differs
    from the one held.  [notified held o] is what the subscribers are
    notified of by the updates that the callback with the outcome [o]
    scheduled, the registry holding [held]; a scheduled update publishes
    the value that the instance has when the callback has returned. *)
Definition notified (held : option pyvalue) (o : Outcome) : list (option pyvalue) :=
  let value := _attr_native_value (self_after o) in
  flat_map (λ eff,
    match eff with
    | ScheduleUpdateHaState force =>
      if force || negb (bool_decide (value = held)) then [value] else []
    | _ => []
    end) (effects o).

(** ** Exact decimal arithmetic *)

(** The value [v * 10^k] rounded to an integer, ties to even: the
    reference that [quantize] is compared with. *)
Definition round_exact (v k : Z) : Z :=
  if 0 <=? k then v * 10 ^ k
  else Dec.signed (v <? 0) (Dec.round_half_even (Z.abs v) (- k)).

(** [r] is an integer nearest to [v * 10^k], and an even one when two
    are equally near. *)
Definition nearest_even (v k r : Z) : Prop :=
  if 0 <=? k then r = v * 10 ^ k
  else 2 * Z.abs (r * 10 ^ (- k) - v) ≤ 10 ^ (- k) ∧
       (2 * Z.abs (r * 10 ^ (- k) - v) = 10 ^ (- k) → Z.even r = true).

(** A finite decimal: [(-1)^fsign * fcoeff * 10^fexp]. *)
Record finite := Fin { fsign : bool; fcoeff : Z; fexp : Z }.

Definition to_decimal (d : finite) : Dec.Decimal :=
  Dec.DFinite (fsign d) (fcoeff d) (fexp d).

(** The coefficient of a finite value is not negative. *)
Definition well_formed (d : Dec.Decimal) : Prop :=
  match d with
  | Dec.DFinite _ c _ => 0 ≤ c
  | _ => True
  end.

(** The smallest exponent among [m] and those of [ds]. *)
Definition common_exp (m : Z) (ds : list finite) : Z :=
  foldl (λ m d, Z.min m (fexp d)) m ds.

(** The sum of [ds] in units of [10^m], for [m] no larger than their
    exponents: an integer, without any rounding. *)
Definition exact_total (m : Z) (ds : list finite) : Z :=
  foldr (λ d t, Dec.signed (fsign d) (fcoeff d) * 10 ^ (fexp d - m) + t) 0 ds.

(** The sum of the magnitudes of [ds] in units of [10^m]. *)
Definition magnitude (m : Z) (ds : list finite) : Z :=
  foldr (λ d t, fcoeff d * 10 ^ (fexp d - m) + t) 0 ds.

(** [round(sum(ds), p)] in exact decimal arithmetic, in units of
    [10^-p]: the sum is taken without rounding and rounded once. *)
Definition exact_aggregate (ds : list finite) (p : Z) : Z :=
  let m := common_exp 0 ds in
  round_exact (exact_total m ds) (m + p).

(** ** Rounding without a precision *)

(** What a recomputation of [self] sets when it rounds the sum to an
    [int]: the sum itself when it is an [int], the integer nearest to a
    finite sum, the even one of two equally near, and an exception for a
    NaN or an infinity. *)
Definition rounds_to_int (hass : StateMachine) (event : string)
    (self : GroupedSensor) : Prop :=
  let o := on_state_change hass self event in
  match py_sum (NInt 0)
          (State.state <$> rem_available (unit_check_result hass self)) with
  | Ok (NInt z) =>
    raised o = None ∧ _attr_native_value (self_after o) = Some (PyInt z)
  | Ok (NDecimal (Dec.DFinite s c e)) =>
    raised o = None ∧
    ∃ z, _attr_native_value (self_after o) = Some (PyInt z) ∧
         nearest_even (Dec.signed s c) e z
  | Ok (NDecimal (Dec.DNaN _ _ _)) => raised o = Some ValueError
  | Ok (NDecimal (Dec.DInfinity _)) => raised o = Some OverflowError
  | Raise e => raised o = Some e
  end.

(** The precision entry that the factory of each kind reads. *)
Definition precision_entry (kind : SensorDeviceClass) (sensor_config : SensorConfig)
    : option Z :=
  match kind with
  | POWER => CONF_POWER_SENSOR_PRECISION sensor_config
  | ENERGY => CONF_ENERGY_SENSOR_PRECISION sensor_config
  end.

Section sensor_kinds.
Variable generate_power_sensor_name : SensorConfig → string → string.
Variable generate_energy_sensor_name : SensorConfig → string → string.
Variable generate_power_sensor_entity_id : StateMachine → SensorConfig → string → string.
Variable generate_energy_sensor_entity_id : StateMachine → SensorConfig → string → string.

(** The factory of each kind. *)
Definition create_grouped_sensor (kind : SensorDeviceClass) (hass : StateMachine)
    (group_name : string) (sensor_config : SensorConfig) (ids : list string)
    : GroupedSensor * list Effect :=
  match kind with
  | POWER =>
    create_grouped_power_sensor generate_power_sensor_name
      generate_power_sensor_entity_id hass group_name sensor_config ids
  | ENERGY =>
    create_grouped_energy_sensor generate_energy_sensor_name
      generate_energy_sensor_entity_id hass group_name sensor_config ids
  end.
End sensor_kinds.

(** ** The loop as a function of the states *)

(** The states that the loop leaves: the state that follows one with
    another unit moves into its place and is stepped over, so it is kept
    whatever its unit. *)
Fixpoint kept_states (self : GroupedSensor) (l : list State) : list State :=
  match l with
  | [] => []
  | x :: l' =>
    if decide (compatible self x) then x :: kept_states self l'
    else match l' with
         | [] => []
         | y :: l'' => y :: kept_states self l''
         end
  end.

(** The states that the loop removes, in the order it meets them. *)
Fixpoint removed_states (self : GroupedSensor) (l : list State) : list State :=
  match l with
  | [] => []
  | x :: l' =>
    if decide (compatible self x) then removed_states self l'
    else x :: match l' with
              | [] => []
              | _ :: l'' => removed_states self l''
              end
  end.

(** The times of the resets among [ops], in order. *)
Definition reset_times (ops : list Operation) : list Z :=
  omap (λ op, match op with
              | ResetEnergy now => Some now
              | _ => None
              end) ops.

(** ** A group used in the examples *)

Definition example_config : SensorConfig :=
  {| CONF_UNIQUE_ID := None;
     CONF_POWER_SENSOR_PRECISION := Some 2;
     CONF_ENERGY_SENSOR_PRECISION := Some 2;
     CONF_ENERGY_SENSOR_UNIT_PREFIX := Some KILO |}.

(** A power group, in W, rounding to [rounding_digits]. *)
Definition example_group (members : list string) (rounding_digits : option Z)
    : GroupedSensor :=
  GroupedPowerSensor__init__ "group" members "sensor.group_power" example_config
    None (Some rounding_digits).

(** A state string and the attributes that give it the unit [unit]. *)
Definition reading (st unit : string) : string * gmap string string :=
  (st, {[ATTR_UNIT_OF_MEASUREMENT := unit]}).

(** * Properties *)

(** ** [list.remove] *)

Section list_remove.
Context {A : Type} `{EqDecision A}.
Implicit Types (x y : A) (l k : list A).

Lemma list_remove_perm x l k : list_remove x l = Some k → l ≡ₚ x :: k.
Proof.
  revert k. induction l as [|y l IH]; intros k; simpl; [done|].
  case_decide as Hxy.
  - intros [= <-]. by subst.
  - destruct (list_remove x l) as [r|]; [|done].
    intros [= <-]. rewrite (IH r eq_refl). apply Permutation_swap.
Qed.

Lemma list_remove_sublist x l k : list_remove x l = Some k → k `sublist_of` l.
Proof.
  revert k. induction l as [|y l IH]; intros k; simpl; [done|].
  case_decide.
  - intros [= <-]. by apply sublist_cons.
  - destruct (list_remove x l) as [r|]; [|done].
    intros [= <-]. apply sublist_skip. by apply IH.
Qed.

Lemma list_remove_is_Some x l : x ∈ l → is_Some (list_remove x l).
Proof.
  induction l as [|y l IH]; simpl; [by intros ?%elem_of_nil|].
  intros Hx. case_decide; [by eexists|].
  apply elem_of_cons in Hx as [?|Hx]; [done|].
  destruct (IH Hx) as [r ->]. by eexists.
Qed.

Lemma list_remove_length x l k :
  list_remove x l = Some k → length l = S (length k).
Proof. intros Hr%list_remove_perm. by rewrite Hr. Qed.

Lemma list_remove_elem_of_ne x y l k :
  list_remove x l = Some k → y ≠ x → y ∈ l → y ∈ k.
Proof.
  intros Hr%list_remove_perm Hne Hy. rewrite Hr in Hy.
  by apply elem_of_cons in Hy as [?|?].
Qed.

Lemma list_remove_elem_of x y l k :
  list_remove x l = Some k → y ∈ k → y ∈ l.
Proof. intros Hr%list_remove_sublist Hy. by eapply elem_of_sublist. Qed.

Lemma list_remove_app_fresh x l1 l2 :
  x ∉ l1 → list_remove x (l1 ++ x :: l2) = Some (l1 ++ l2).
Proof.
  induction l1 as [|y l1 IH]; simpl; intros Hx.
  - by rewrite decide_True.
  - apply not_elem_of_cons in Hx as [Hxy Hx].
    rewrite decide_False by done. by rewrite IH.
Qed.

Lemma list_remove_filter (P : A → Prop) `{!∀ a, Decision (P a)} x l k :
  list_remove x l = Some k → P x →
  list_remove x (filter P l) = Some (filter P k).
Proof.
  revert k. induction l as [|y l IH]; intros k; simpl; [done|].
  case_decide as Hxy.
  - intros [= <-] HP. subst y. rewrite filter_cons_True by done.
    simpl. by rewrite decide_True.
  - destruct (list_remove x l) as [r|]; [|done].
    intros [= <-] HP. specialize (IH r eq_refl HP).
    destruct (decide (P y)).
    + rewrite !filter_cons_True by done. simpl.
      rewrite decide_False by done. by rewrite IH.
    + by rewrite !filter_cons_False by done.
Qed.

Lemma list_remove_filter_None (P : A → Prop) `{!∀ a, Decision (P a)} x l :
  list_remove x l = None → list_remove x (filter P l) = None.
Proof.
  induction l as [|y l IH]; simpl; [done|].
  case_decide as Hxy; [done|].
  destruct (list_remove x l) as [r|]; [done|]. intros _.
  destruct (decide (P y)).
  - rewrite filter_cons_True by done. simpl.
    rewrite decide_False by done. by rewrite IH.
  - rewrite filter_cons_False by done. by apply IH.
Qed.

Lemma list_remove_filter_other (P : A → Prop) `{!∀ a, Decision (P a)} x l k :
  list_remove x l = Some k → ¬ P x → filter P k = filter P l.
Proof.
  revert k. induction l as [|y l IH]; intros k; simpl; [done|].
  case_decide as Hxy.
  - intros [= <-] HP. subst y. by rewrite filter_cons_False.
  - destruct (list_remove x l) as [r|]; [|done].
    intros [= <-] HP. specialize (IH r eq_refl HP).
    destruct (decide (P y)).
    + rewrite !filter_cons_True by done. by rewrite IH.
    + by rewrite !filter_cons_False by done.
Qed.
End list_remove.

(** ** Lower case *)

Lemma chr_lower_idemp a : chr_lower (chr_lower a) = chr_lower a.
Proof. by destruct a as [[] [] [] [] [] [] [] []]; vm_compute. Qed.

Lemma str_lower_idemp s : str_lower (str_lower s) = str_lower s.
Proof.
  induction s as [|a s IH]; [done|].
  simpl. by rewrite chr_lower_idemp, IH.
Qed.

(** ** The loop over [available_states] *)

Section unit_check.
Variable self : GroupedSensor.

(** A loop over a list that only shrinks ends: with more fuel than
    elements left, [unit_check] gives a result. *)
Lemma unit_check_fuel fuel i available_states entities log :
  (length available_states - i < fuel)%nat →
  is_Some (unit_check self fuel i available_states entities log).
Proof.
  revert i available_states entities log.
  induction fuel as [|fuel IH]; intros i avail ents log Hlt; [lia|].
  simpl. destruct (avail !! i) as [state|] eqn:Hi; [|by eexists].
  apply lookup_lt_Some in Hi.
  destruct (_attr_native_unit_of_measurement self); [|by eexists].
  case_decide.
  - destruct (list_remove state avail) as [avail'|] eqn:Ha; [|by eexists].
    destruct (list_remove (State.entity_id state) ents); [|by eexists].
    apply IH. apply list_remove_length in Ha. lia.
  - apply IH. lia.
Qed.

(** The steps of the loop. *)
Lemma unit_check_step_no_unit fuel i available_states entities log state :
  available_states !! i = Some state →
  _attr_native_unit_of_measurement self = None →
  unit_check self (S fuel) i available_states entities log =
  Some (Build_Removal available_states entities log (Some AttributeError)).
Proof. intros Hi Hu. simpl. by rewrite Hi, Hu. Qed.

Lemma unit_check_step_compatible fuel i available_states entities log state :
  available_states !! i = Some state → has_unit self → compatible self state →
  unit_check self (S fuel) i available_states entities log =
  unit_check self fuel (S i) available_states entities log.
Proof.
  intros Hi [u Hu] Hc. simpl. rewrite Hi, Hu. rewrite decide_False; [done|].
  intros Hn. apply Hn. by rewrite <- Hu.
Qed.

Lemma unit_check_step_incompatible fuel i available_states entities log state
    available' entities' :
  available_states !! i = Some state → has_unit self → ¬ compatible self state →
  list_remove state available_states = Some available' →
  list_remove (State.entity_id state) entities = Some entities' →
  unit_check self (S fuel) i available_states entities log =
  unit_check self fuel (S i) available' entities' (log ++ [mismatch_error self state]).
Proof.
  intros Hi [u Hu] Hc Ha He. simpl. rewrite Hi, Hu.
  rewrite decide_True by (intros Heq; apply Hc; unfold compatible; by rewrite Hu).
  by rewrite Ha, He.
Qed.

(** What the loop keeps, what it removes and what it logs.  [failed] is
    the state that the loop had logged when a [remove] raised. *)
Lemma unit_check_gen fuel i available_states entities log r :
  unit_check self fuel i available_states entities log = Some r →
  rem_entities r `sublist_of` entities ∧
  ∃ removed failed,
    Forall (λ state, state ∈ available_states ∧ ¬ compatible self state)
      (removed ++ failed) ∧
    entities ≡ₚ (State.entity_id <$> removed) ++ rem_entities r ∧
    rem_log r = log ++ (mismatch_error self <$> removed ++ failed) ∧
    (rem_raised r = None →
     failed = [] ∧
     available_states ≡ₚ removed ++ rem_available r ∧
     ∀ state, state ∈ available_states → compatible self state →
              state ∈ rem_available r).
Proof.
  revert i available_states entities log.
  induction fuel as [|fuel IH]; intros i avail ents log; [done|].
  simpl. destruct (avail !! i) as [state|] eqn:Hi.
  2:{ intros [= <-]. simpl. split; [done|]. exists [], []. simpl.
      by rewrite app_nil_r. }
  assert (state ∈ avail) as Hin by (by eapply list_elem_of_lookup_2).
  destruct (_attr_native_unit_of_measurement self) as [u|] eqn:Hu.
  2:{ intros [= <-]. simpl. split; [done|]. exists [], []. simpl.
      by rewrite app_nil_r. }
  case_decide as Hunit.
  - assert (¬ compatible self state) as Hc.
    { unfold compatible, unit_of. by rewrite Hu. }
    assert (LogError (mismatch_message self state
                        (State.attributes state !! ATTR_UNIT_OF_MEASUREMENT)) =
            mismatch_error self state) as Herr by done.
    rewrite Herr.
    destruct (list_remove state avail) as [avail'|] eqn:Ha.
    2:{ intros [= <-]. simpl. split; [done|]. exists [], [state]. simpl.
        repeat split; try done. by constructor. }
    destruct (list_remove (State.entity_id state) ents) as [ents'|] eqn:He.
    2:{ intros [= <-]. simpl. split; [done|]. exists [], [state]. simpl.
        repeat split; try done. by constructor. }
    intros Hr.
    pose proof (list_remove_perm _ _ _ Ha) as Hpa.
    pose proof (list_remove_perm _ _ _ He) as Hpe.
    destruct (IH _ _ _ _ Hr) as (Hse & removed & failed & Hrem & Hre & Hlog & Hok).
    split.
    { etrans; [done|]. by eapply list_remove_sublist. }
    exists (state :: removed), failed. repeat split.
    + simpl. constructor; [done|].
      eapply Forall_impl; [done|]. intros st [Hst ?]. split; [|done].
      by eapply list_remove_elem_of.
    + by rewrite Hpe, Hre.
    + rewrite Hlog. simpl. by rewrite <- app_assoc.
    + by apply Hok.
    + destruct (Hok H) as (_ & Hra & _). by rewrite Hpa, Hra.
    + intros st Hst Hcst. destruct (Hok H) as (_ & _ & Hkeep).
      apply Hkeep; [|done].
      eapply list_remove_elem_of_ne; [done| |done]. by intros ->.
  - apply IH.
Qed.

(** With a unit to compare with, and every state belonging to a member
    still listed, no [remove] raises. *)
Lemma unit_check_regular fuel i available_states entities log r :
  has_unit self →
  State.entity_id <$> available_states ⊆+ entities →
  unit_check self fuel i available_states entities log = Some r →
  rem_raised r = None ∧
  State.entity_id <$> rem_available r ⊆+ rem_entities r.
Proof.
  intros Hunit. revert i available_states entities log.
  induction fuel as [|fuel IH]; intros i avail ents log Hsub; [done|].
  destruct (avail !! i) as [state|] eqn:Hi.
  2:{ simpl. rewrite Hi. by intros [= <-]. }
  assert (state ∈ avail) as Hin by (by eapply list_elem_of_lookup_2).
  destruct (decide (compatible self state)) as [Hc|Hc].
  - rewrite (unit_check_step_compatible _ _ _ _ _ _ Hi Hunit Hc). by apply IH.
  - destruct (list_remove_is_Some state avail Hin) as [avail' Ha].
    assert (State.entity_id state ∈ ents) as Hid.
    { eapply elem_of_submseteq; [|done]. by apply list_elem_of_fmap_2. }
    destruct (list_remove_is_Some _ ents Hid) as [ents' He].
    rewrite (unit_check_step_incompatible _ _ _ _ _ _ _ _ Hi Hunit Hc Ha He).
    apply IH.
    apply (submseteq_app_inv_l _ _ [State.entity_id state]). simpl.
    rewrite <- (list_remove_perm _ _ _ He), <- (fmap_cons State.entity_id).
    by rewrite <- (list_remove_perm _ _ _ Ha).
Qed.

(** The two together, for a group with a unit. *)
Lemma unit_check_inv fuel i available_states entities log r :
  has_unit self →
  unit_check self fuel i available_states entities log = Some r →
  State.entity_id <$> available_states ⊆+ entities →
  rem_raised r = None ∧
  rem_entities r `sublist_of` entities ∧
  State.entity_id <$> rem_available r ⊆+ rem_entities r ∧
  (∀ state, state ∈ available_states → compatible self state →
     state ∈ rem_available r) ∧
  ∃ removed,
    Forall (λ state, state ∈ available_states ∧ ¬ compatible self state) removed ∧
    available_states ≡ₚ removed ++ rem_available r ∧
    entities ≡ₚ (State.entity_id <$> removed) ++ rem_entities r ∧
    rem_log r = log ++ (mismatch_error self <$> removed).
Proof.
  intros Hunit Hr Hsub.
  destruct (unit_check_regular _ _ _ _ _ _ Hunit Hsub Hr) as [Hraise Hsa].
  destruct (unit_check_gen _ _ _ _ _ _ Hr)
    as (Hse & removed & failed & Hrem & Hre & Hlog & Hok).
  destruct (Hok Hraise) as (-> & Hra & Hkeep).
  rewrite app_nil_r in Hrem, Hlog.
  repeat split; try done. by exists removed.
Qed.
End unit_check.

(** ** The states collected before the loop *)

Lemma states_get_entity_id hass e state :
  states_get hass e = Some state → State.entity_id state = str_lower e.
Proof.
  unfold states_get. destruct (hass !! str_lower e) as [[st attrs]|]; [|done].
  by intros [= <-].
Qed.

Lemma states_get_lower hass e : states_get hass (str_lower e) = states_get hass e.
Proof. unfold states_get. by rewrite str_lower_idemp. Qed.

(** The state found for a member is the state of its own id. *)
Lemma states_get_state hass e state :
  states_get hass e = Some state →
  states_get hass (State.entity_id state) = Some state.
Proof.
  intros Hget. rewrite (states_get_entity_id _ _ _ Hget).
  by rewrite states_get_lower.
Qed.

Lemma available_states_get hass e :
  available hass e ↔
  ∃ state, states_get hass e = Some state ∧ State.state state ∉ ignored_states.
Proof.
  unfold available, states_get. split.
  - intros (st & attrs & -> & Ha & Hb). eexists. split; [done|]. simpl.
    intros [->|[->|[]%elem_of_nil]%elem_of_cons]%elem_of_cons; done.
  - intros (state & Hget & Hst).
    destruct (hass !! str_lower e) as [[st attrs]|]; [|done].
    injection Hget as <-. simpl in Hst. exists st, attrs.
    split; [done|]. split; intros ->; apply Hst.
    + by left.
    + right. by left.
Qed.

Lemma collect_available_cons hass e entities :
  collect_available hass (e :: entities) =
  match states_get hass e with
  | Some state =>
    if decide (State.state state ∉ ignored_states)
    then state :: collect_available hass entities
    else collect_available hass entities
  | None => collect_available hass entities
  end.
Proof.
  unfold collect_available. simpl.
  destruct (states_get hass e) as [state|]; simpl; [|done].
  destruct (decide _) as [Hd|Hd].
  - by rewrite filter_cons_True.
  - by rewrite filter_cons_False.
Qed.

Lemma elem_of_collect_available_gen hass entities state :
  state ∈ collect_available hass entities ↔
  ∃ e, e ∈ entities ∧ states_get hass e = Some state ∧
       State.state state ∉ ignored_states.
Proof.
  induction entities as [|e entities IH].
  - split; [by intros ?%elem_of_nil|]. by intros (? & ?%elem_of_nil & _).
  - rewrite collect_available_cons. split.
    + intros Hin. destruct (states_get hass e) as [st|] eqn:He.
      * destruct (decide (State.state st ∉ ignored_states)) as [Hav|Hav].
        -- apply elem_of_cons in Hin as [->|Hin].
           ++ exists e. split; [by left|done].
           ++ apply IH in Hin as (e' & ? & ? & ?). exists e'.
              split; [by right|done].
        -- apply IH in Hin as (e' & ? & ? & ?). exists e'.
           split; [by right|done].
      * apply IH in Hin as (e' & ? & ? & ?). exists e'.
        split; [by right|done].
    + intros (e' & [->|Hin]%elem_of_cons & Hget & Hav).
      * rewrite Hget, decide_True by done. by left.
      * assert (state ∈ collect_available hass entities) as Hst
          by (apply IH; by exists e').
        destruct (states_get hass e) as [st|]; [|done].
        case_decide; [by right|done].
Qed.

(** A collected state is the available state of its own id. *)
Lemma elem_of_collect_available_1 hass entities state :
  state ∈ collect_available hass entities →
  states_get hass (State.entity_id state) = Some state ∧
  State.state state ∉ ignored_states.
Proof.
  intros (e & _ & Hget & Hav)%elem_of_collect_available_gen.
  split; [|done]. by eapply states_get_state.
Qed.

Lemma elem_of_collect_available hass entities state :
  Forall (λ e, str_lower e = e) entities →
  state ∈ collect_available hass entities ↔
  State.entity_id state ∈ entities ∧
  states_get hass (State.entity_id state) = Some state ∧
  State.state state ∉ ignored_states.
Proof.
  intros Hlow. rewrite elem_of_collect_available_gen. split.
  - intros (e & Hin & Hget & Hav).
    rewrite Forall_forall in Hlow.
    rewrite (states_get_entity_id _ _ _ Hget), (Hlow e Hin).
    done.
  - intros (Hin & Hget & Hav). by exists (State.entity_id state).
Qed.

Lemma collect_available_ids hass entities :
  Forall (λ e, str_lower e = e) entities →
  State.entity_id <$> collect_available hass entities `sublist_of` entities.
Proof.
  induction 1 as [|e entities He _ IH]; [done|].
  rewrite collect_available_cons.
  destruct (states_get hass e) as [st|] eqn:Hget; [|by apply sublist_cons].
  case_decide; [|by apply sublist_cons].
  rewrite fmap_cons, (states_get_entity_id _ _ _ Hget), He.
  by apply sublist_skip.
Qed.

(** Members without an available state add nothing to what is collected. *)
Lemma collect_available_filter hass entities :
  collect_available hass (filter (available hass) entities) =
  collect_available hass entities.
Proof.
  induction entities as [|e entities IH]; [done|].
  destruct (decide (available hass e)) as [Hav|Hav].
  - rewrite filter_cons_True by done.
    rewrite !collect_available_cons, IH. done.
  - rewrite filter_cons_False by done.
    rewrite collect_available_cons, IH.
    destruct (states_get hass e) as [st|] eqn:He; [|done].
    case_decide; [|done]. destruct Hav.
    apply available_states_get. by exists st.
Qed.

(** The loop of [on_state_change] always has enough fuel. *)
Lemma run_unit_check_eq self available_states :
  unit_check self (S (length available_states)) 0 available_states
    (_entities self) [] = Some (run_unit_check self available_states).
Proof.
  unfold run_unit_check.
  destruct (unit_check_fuel self (S (length available_states)) 0
              available_states (_entities self) []) as [r ->]; [lia|done].
Qed.

(** ** [on_state_change] as a whole *)

(** What the loop of a recomputation removes and logs, whatever the
    group and its members. *)
Lemma unit_check_result_gen hass self :
  let r := unit_check_result hass self in
  rem_entities r `sublist_of` _entities self ∧
  ∃ removed failed,
    Forall (λ state, state ∈ collect_available hass (_entities self) ∧
                     ¬ compatible self state) (removed ++ failed) ∧
    _entities self ≡ₚ (State.entity_id <$> removed) ++ rem_entities r ∧
    rem_log r = mismatch_error self <$> removed ++ failed ∧
    (rem_raised r = None → failed = []).
Proof.
  intros r.
  destruct (unit_check_gen self _ _ _ _ _ _
              (run_unit_check_eq self (collect_available hass (_entities self))))
    as (? & removed & failed & ? & ? & ? & Hok).
  split; [done|]. exists removed, failed. repeat split; try done.
  intros Hraise. by destruct (Hok Hraise).
Qed.

(** For a group with a unit whose member ids are in lower case no
    [remove] of the loop raises. *)
Lemma unit_check_result_spec hass self :
  has_unit self → lower_case_ids self →
  let r := unit_check_result hass self in
  rem_raised r = None ∧
  rem_entities r `sublist_of` _entities self ∧
  (∀ state, state ∈ collect_available hass (_entities self) →
     compatible self state → state ∈ rem_available r) ∧
  ∃ removed,
    Forall (λ state, state ∈ collect_available hass (_entities self) ∧
                     ¬ compatible self state) removed ∧
    collect_available hass (_entities self) ≡ₚ removed ++ rem_available r ∧
    _entities self ≡ₚ (State.entity_id <$> removed) ++ rem_entities r ∧
    rem_log r = mismatch_error self <$> removed.
Proof.
  intros Hunit Hlow r.
  destruct (unit_check_inv self _ _ _ _ _ _ Hunit
              (run_unit_check_eq self (collect_available hass (_entities self))))
    as (? & ? & ? & ? & removed & ? & ? & ? & ?).
  { by apply sublist_submseteq, collect_available_ids. }
  repeat split; try done. by exists removed.
Qed.

Lemma on_state_change_gen hass self event :
  let r := unit_check_result hass self in
  on_state_change hass self event =
  match rem_raised r with
  | Some e => Build_Outcome (set_entities (rem_entities r) self) (rem_log r) (Some e)
  | None =>
    match aggregate hass self with
    | Raise e => Build_Outcome (set_entities (rem_entities r) self) (rem_log r) (Some e)
    | Ok v =>
      Build_Outcome (set_native_value (of_number v) (set_entities (rem_entities r) self))
        (rem_log r ++ [ScheduleUpdateHaState true]) None
    end
  end.
Proof. done. Qed.

Lemma on_state_change_eq hass self event :
  has_unit self → lower_case_ids self →
  let r := unit_check_result hass self in
  on_state_change hass self event =
  match aggregate hass self with
  | Raise e => Build_Outcome (set_entities (rem_entities r) self) (rem_log r) (Some e)
  | Ok v =>
    Build_Outcome (set_native_value (of_number v) (set_entities (rem_entities r) self))
      (rem_log r ++ [ScheduleUpdateHaState true]) None
  end.
Proof.
  intros Hunit Hlow r. subst r. rewrite on_state_change_gen.
  by destruct (unit_check_result_spec hass self Hunit Hlow) as (-> & _).
Qed.

(** ** The operations on an instance after its construction *)

Lemma on_state_change_entities hass self event :
  _entities (self_after (on_state_change hass self event)) =
  rem_entities (unit_check_result hass self).
Proof.
  rewrite on_state_change_gen.
  destruct (rem_raised _); [done|]. by destruct (aggregate hass self).
Qed.

Lemma perform_entities_sublist op self :
  _entities (self_after (perform op self)) `sublist_of` _entities self.
Proof.
  destruct op as [hass event|last_state|now]; simpl.
  - rewrite on_state_change_entities.
    by destruct (unit_check_result_gen hass self) as (? & _).
  - by destruct last_state.
  - done.
Qed.

Lemma run_entities_sublist ops self :
  _entities (run ops self) `sublist_of` _entities self.
Proof.
  revert self. induction ops as [|op ops IH]; intros self; [done|].
  simpl. etrans; [apply IH|apply perform_entities_sublist].
Qed.

(** C4: after every operation the member list is a sublist of the list
    before it, in the same order, over any sequence of recomputations,
    restorations and resets; only a recomputation removes members, and
    each identifier it removes belongs to a member whose available state
    has another unit than the group. *)
Theorem members_only_shrink :
  (∀ ops self, _entities (run ops self) `sublist_of` _entities self) ∧
  (∀ op self,
     let self' := self_after (perform op self) in
     _entities self' `sublist_of` _entities self ∧
     match op with
     | OnStateChange hass _ =>
       ∃ removed, _entities self ≡ₚ removed ++ _entities self' ∧
                  Forall (incompatible_member hass self) removed
     | _ => _entities self' = _entities self
     end).
Proof.
  split; [apply run_entities_sublist|].
  intros op self self'. split; [apply perform_entities_sublist|].
  destruct op as [hass event|last_state|now]; simpl in *.
  - subst self'. rewrite on_state_change_entities.
    destruct (unit_check_result_gen hass self)
      as (_ & removed & failed & Hrem & Hperm & _).
    exists (State.entity_id <$> removed). split; [done|].
    apply Forall_fmap. apply Forall_app in Hrem as [Hrem _].
    eapply Forall_impl; [done|].
    intros state [Hin Hunit]. simpl.
    apply elem_of_collect_available_1 in Hin as [? ?].
    by exists state.
  - by destruct last_state.
  - done.
Qed.

(** ** The reset cascade *)

Lemma service_calls_app effs1 effs2 :
  service_calls (effs1 ++ effs2) = service_calls effs1 ++ service_calls effs2.
Proof. apply omap_app. Qed.

(** C5: one reset of a group with N members hands over exactly N reset
    commands, the k-th addressed to the k-th member, stamps the group with
    the current time and writes the stamped state once, as the last step
    of the same call; no outcome of a command enters the call, which never
    raises and leaves the members as they are. *)
Theorem reset_energy_cascade now self :
  let o := async_reset_energy now self in
  service_calls (effects o) =
    (λ e, (DOMAIN, SERVICE_RESET_ENERGY, {[ATTR_ENTITY_ID := e]})) <$> _entities self ∧
  length (service_calls (effects o)) = length (_entities self) ∧
  _attr_last_reset (self_after o) = Some now ∧
  state_writes (effects o) = [self_after o] ∧
  last (effects o) = Some (WriteHaState (self_after o)) ∧
  raised o = None ∧
  _entities (self_after o) = _entities self.
Proof.
  intros o. subst o. unfold async_reset_energy. simpl.
  set (self1 := set_last_reset now self).
  assert (∀ l : list string,
    service_calls (flat_map (λ entity_id,
      [LogDebug ("Resetting " +:+ entity_id);
       CreateTask DOMAIN SERVICE_RESET_ENERGY {[ATTR_ENTITY_ID := entity_id]}]) l
      ++ [WriteHaState self1]) =
    (λ e, (DOMAIN, SERVICE_RESET_ENERGY, {[ATTR_ENTITY_ID := e]})) <$> l) as Hcalls.
  { induction l as [|e l IH]; [done|]. simpl. unfold service_calls in *.
    simpl. by rewrite IH. }
  assert (∀ l : list string,
    state_writes (flat_map (λ entity_id,
      [LogDebug ("Resetting " +:+ entity_id);
       CreateTask DOMAIN SERVICE_RESET_ENERGY {[ATTR_ENTITY_ID := entity_id]}]) l
      ++ [WriteHaState self1]) = [self1]) as Hwrites.
  { induction l as [|e l IH]; [done|]. simpl. unfold state_writes in *.
    simpl. by rewrite IH. }
  repeat split.
  - unfold service_calls at 1. simpl. apply Hcalls.
  - unfold service_calls at 1. simpl. fold (service_calls). rewrite Hcalls.
    by rewrite length_fmap.
  - unfold state_writes at 1. simpl. apply Hwrites.
  - rewrite app_comm_cons. apply last_snoc.
Qed.

(** ** Restoration *)

(** C6: attaching with a persisted state sets the value to exactly the
    persisted state string, and attaching without one leaves the value as
    it was, which is unset for an instance just constructed; in both cases
    the attachment only subscribes to the members, so this is the value
    before any member event is handled. *)
Theorem restore_seeds_value :
  (∀ self state,
     let o := async_added_to_hass (Some state) self in
     _attr_native_value (self_after o) = Some (PyStr (State.state state)) ∧
     effects o = [TrackStateChangeEvent (_entities self)] ∧ raised o = None) ∧
  (∀ self,
     let o := async_added_to_hass None self in
     _attr_native_value (self_after o) = _attr_native_value self ∧
     effects o = [TrackStateChangeEvent (_entities self)] ∧ raised o = None) ∧
  (∀ device_class state_class native_unit name entities entity_id sensor_config
     unique_id rounding_digits,
     let self := GroupedSensor__init__ device_class state_class native_unit name
                   entities entity_id sensor_config unique_id rounding_digits in
     _attr_native_value self = None ∧
     _attr_native_value (self_after (async_added_to_hass None self)) = None).
Proof. repeat split. Qed.

(** ** The membership filter *)

(** C7: the selection returns the ids of the candidates that pass every
    filter of the caller, are no [GroupedSensor] and are instances of the
    requested class, in the order of the candidates; it is empty when no
    candidate qualifies, and every list the caller holds, its filter list
    included, is left as it was. *)
Theorem filter_selects_members heap all_entities default_filters className :
  let qualifies x :=
    forallb (λ f : Entity → bool, f x) (heap !!! default_filters)
    && negb (isinstance x cls_GroupedSensor) && isinstance x className in
  let '(heap', ids) :=
    _get_filtered_entity_ids_by_class heap all_entities default_filters className in
  ids = ent_entity_id <$> List.filter qualifies all_entities ∧
  (forallb (λ x, negb (qualifies x)) all_entities = true → ids = []) ∧
  (∀ a, a ∈ dom heap → heap' !! a = heap !! a).
Proof.
  intros qualifies. unfold _get_filtered_entity_ids_by_class.
  set (filters := fresh (dom heap)).
  assert (filters ∉ dom heap) as Hfresh by apply is_fresh.
  set (fs := heap !!! default_filters) in *.
  assert (∀ x, forallb (λ f : Entity → bool, f x)
                 (alter (λ l, l ++ [λ elm, isinstance elm className]) filters
                    (alter (λ l, l ++ [λ elm, negb (isinstance elm cls_GroupedSensor)])
                       filters (<[filters:=fs]> heap)) !!! filters) = qualifies x)
    as Hq.
  { intros x. rewrite lookup_total_alt, !lookup_alter_eq, lookup_insert_eq. simpl.
    rewrite !forallb_app. simpl. subst qualifies. simpl.
    by rewrite !andb_true_r. }
  assert (List.filter (λ x, forallb (λ f : Entity → bool, f x)
                 (alter (λ l, l ++ [λ elm, isinstance elm className]) filters
                    (alter (λ l, l ++ [λ elm, negb (isinstance elm cls_GroupedSensor)])
                       filters (<[filters:=fs]> heap)) !!! filters)) all_entities
          = List.filter qualifies all_entities) as ->.
  { apply List.filter_ext. intros x. apply Hq. }
  repeat split.
  - intros Hnone. induction all_entities as [|x l IH]; [done|].
    simpl in *. apply andb_true_iff in Hnone as [Hx Hl].
    apply negb_true_iff in Hx. rewrite Hx. by apply IH.
  - intros a Ha. assert (filters ≠ a) by (by intros ->).
    by rewrite !lookup_alter_ne, lookup_insert_ne.
Qed.

(** ** Publishing *)

(** C9, as stated, fails: a recomputation over a member whose state is
    the string "on" raises, sets no value, schedules no update and
    notifies nobody. *)
Lemma recomputation_without_publish :
  let o := on_state_change {["sensor.a" := reading "on" "W"]}
             (example_group ["sensor.a"] (Some 2)) "sensor.a" in
  raised o = Some InvalidOperation ∧
  effects o = [] ∧
  _attr_native_value (self_after o) = None ∧
  notified None o = [].
Proof. vm_compute. done. Qed.

Lemma notified_app held self effs1 effs2 raised :
  notified held (Build_Outcome self (effs1 ++ effs2) raised) =
  notified held (Build_Outcome self effs1 raised) ++
  notified held (Build_Outcome self effs2 raised).
Proof. unfold notified. simpl. apply flat_map_app. Qed.

Lemma notified_mismatch_errors held self self' states raised :
  notified held (Build_Outcome self (mismatch_error self' <$> states) raised) = [].
Proof.
  unfold notified. cbn [effects self_after].
  induction states as [|state states IH]; [done|].
  rewrite fmap_cons. cbn [flat_map]. by rewrite IH.
Qed.

(** C9 (amended): every recomputation that completes ends by publishing
    the new aggregate value with the force flag set: it sets the rounded
    sum and its last effect, after the errors logged for the removed
    members, is the one scheduled state update with the flag [True], so
    the subscribers are notified of the value, also when it equals the
    value that the registry held.  A recomputation that raises keeps the
    previous value, schedules no update and notifies nobody. *)
Theorem recomputation_publishes hass self event held :
  let o := on_state_change hass self event in
  (raised o = None →
   ∃ v removed,
     aggregate hass self = Ok v ∧
     _attr_native_value (self_after o) = Some (of_number v) ∧
     effects o = (mismatch_error self <$> removed) ++ [ScheduleUpdateHaState true] ∧
     notified held o = [Some (of_number v)]) ∧
  (∀ e, raised o = Some e →
     _attr_native_value (self_after o) = _attr_native_value self ∧
     (∃ logged, effects o = mismatch_error self <$> logged) ∧
     notified held o = []).
Proof.
  intros o. subst o. rewrite on_state_change_gen.
  destruct (unit_check_result_gen hass self)
    as (_ & removed & failed & _ & _ & Hlog & Hok).
  rewrite Hlog.
  destruct (rem_raised (unit_check_result hass self)) as [e|] eqn:Hraise.
  - split; [done|]. intros e' _. split; [done|].
    split; [by eexists|]. apply notified_mismatch_errors.
  - rewrite (Hok eq_refl), app_nil_r.
    destruct (aggregate hass self) as [v|e].
    + split; [|done]. intros _. exists v, removed. repeat split.
      rewrite notified_app, notified_mismatch_errors. done.
    + split; [done|]. intros e' _. split; [done|].
      split; [by eexists|]. apply notified_mismatch_errors.
Qed.

Lemma recomputation_publishes_witness :
  let hass : StateMachine := {["sensor.a" := reading "5" "W"]} in
  let self :=
    self_after (on_state_change hass (example_group ["sensor.a"] (Some 2))
                  "sensor.a") in
  let o := on_state_change hass self "sensor.a" in
  ∃ v removed,
    aggregate hass self = Ok v ∧
    _attr_native_value (self_after o) = Some (of_number v) ∧
    effects o = (mismatch_error self <$> removed) ++ [ScheduleUpdateHaState true] ∧
    notified (_attr_native_value self) o = [Some (of_number v)].
Proof.
  intros hass self.
  apply (recomputation_publishes hass self "sensor.a" (_attr_native_value self)).
  vm_compute. reflexivity.
Defined.

(** Two recomputations over the same states: the second sets the value
    the first had set, schedules the update all the same, and the
    subscribers are notified of the value that the registry holds
    already. *)
Example same_value_is_published_again :
  let hass : StateMachine := {["sensor.a" := reading "5" "W"]} in
  let o1 := on_state_change hass (example_group ["sensor.a"] (Some 2)) "sensor.a" in
  let o2 := on_state_change hass (self_after o1) "sensor.a" in
  _attr_native_value (self_after o2) = _attr_native_value (self_after o1) ∧
  effects o2 = [ScheduleUpdateHaState true] ∧
  notified (_attr_native_value (self_after o1)) o2 =
    [Some (PyDecimal (Dec.DFinite false 500 (-2)))].
Proof. vm_compute. done. Qed.

(** ** States that are no numbers *)

Lemma of_string_raises s e : Dec.of_string s = Raise e → e = InvalidOperation.
Proof.
  unfold Dec.of_string, Dec.of_list.
  repeat case_match; by intros [= <-].
Qed.

Lemma fix_finite_raises s c x e : Dec.fix_finite s c x = Raise e → e = Overflow.
Proof.
  unfold Dec.fix_finite. repeat case_match; by intros [= <-].
Qed.

Lemma add_raises a b e :
  Dec.add a b = Raise e → e = InvalidOperation ∨ e = Overflow.
Proof.
  unfold Dec.add.
  destruct (Dec.check_nans a b) as [r|] eqn:Hnan.
  - intros ->. left.
    unfold Dec.check_nans in Hnan. by repeat case_match; simplify_eq.
  - destruct a, b; try (repeat case_match; by (intros [= <-]; auto)).
    case_match; intros ?%fix_finite_raises; auto.
Qed.

Lemma py_add_raises acc d e :
  py_add acc d = Raise e → e = InvalidOperation ∨ e = Overflow.
Proof.
  unfold py_add. destruct acc as [z|a].
  - destruct (Dec.add d (Dec.of_int z)) eqn:Ha; [done|].
    intros [= <-]. by eapply add_raises.
  - destruct (Dec.add a d) eqn:Ha; [done|].
    intros [= <-]. by eapply add_raises.
Qed.

(** A sum over states of which one is no number raises. *)
Lemma py_sum_unparseable states acc s :
  s ∈ states → Dec.of_string s = Raise InvalidOperation →
  py_sum acc states = Raise InvalidOperation ∨ py_sum acc states = Raise Overflow.
Proof.
  revert acc. induction states as [|s' states IH]; intros acc Hin Hs.
  { by apply elem_of_nil in Hin. }
  simpl. destruct (Dec.of_string s') as [d|e] eqn:Hd.
  - simpl. destruct (py_add acc d) as [acc'|e] eqn:Hadd; simpl.
    + apply elem_of_cons in Hin as [->|Hin]; [congruence|]. by apply IH.
    + apply py_add_raises in Hadd as [->| ->]; auto.
  - apply of_string_raises in Hd as ->. auto.
Qed.

(** C2, as stated, fails: with the state "abc" for the second member the
    recomputation raises and sets nothing, while with the marker
    "unavailable" in its place it completes with the first member's 5. *)
Lemma unparseable_not_skipped :
  let self := example_group ["sensor.a"; "sensor.b"] (Some 2) in
  let o := on_state_change
             {["sensor.a" := reading "5" "W"; "sensor.b" := reading "abc" "W"]}
             self "sensor.b" in
  let o' := on_state_change
              {["sensor.a" := reading "5" "W";
                "sensor.b" := reading "unavailable" "W"]}
              self "sensor.b" in
  (raised o = Some InvalidOperation ∧ effects o = [] ∧
   _attr_native_value (self_after o) = None) ∧
  (raised o' = None ∧
   _attr_native_value (self_after o') =
     Some (PyDecimal (Dec.DFinite false 500 (-2)))).
Proof. vm_compute. done. Qed.

(** C2 (amended): in a group that has a unit and whose member ids are in
    lower case, a member with the group's unit whose state is neither
    marker and is no number makes the recomputation raise a decimal
    exception: the value stays what it was, no update is scheduled, the
    member stays in the list, and the only records at error level are
    those of members with another unit. *)
Theorem unparseable_state_raises hass self event e st attrs :
  has_unit self →
  lower_case_ids self →
  e ∈ _entities self →
  hass !! e = Some (st, attrs) →
  st ∉ ignored_states →
  attrs !! ATTR_UNIT_OF_MEASUREMENT = _attr_native_unit_of_measurement self →
  Dec.of_string st = Raise InvalidOperation →
  let o := on_state_change hass self event in
  (raised o = Some InvalidOperation ∨ raised o = Some Overflow) ∧
  _attr_native_value (self_after o) = _attr_native_value self ∧
  e ∈ _entities (self_after o) ∧
  ∃ removed, effects o = mismatch_error self <$> removed ∧
             Forall (λ state, ¬ compatible self state) removed.
Proof.
  intros Hhas Hlow He Hget Hst Hunit Hparse o. subst o.
  set (state := State.mk e st attrs).
  assert (str_lower e = e) as Hle.
  { unfold lower_case_ids in Hlow. rewrite Forall_forall in Hlow. by apply Hlow. }
  assert (states_get hass e = Some state) as Hsg.
  { unfold states_get. by rewrite Hle, Hget. }
  assert (state ∈ collect_available hass (_entities self)) as Hin.
  { apply elem_of_collect_available; done. }
  assert (compatible self state) as Hc by done.
  rewrite on_state_change_eq by done.
  destruct (unit_check_result_spec hass self Hhas Hlow)
    as (_ & _ & Hkeep & removed & Hrem & _ & Hperm & Hlog).
  pose proof (Hkeep state Hin Hc) as Hstay.
  assert (e ∈ rem_entities (unit_check_result hass self)) as Hmem.
  { rewrite Hperm in He. apply elem_of_app in He as [He|He]; [|done].
    apply list_elem_of_fmap in He as (st' & -> & Hst').
    rewrite Forall_forall in Hrem. destruct (Hrem _ Hst') as [Hin' Hnc].
    apply elem_of_collect_available_1 in Hin' as (Hget' & _).
    assert (st' = state) as Heq by congruence. rewrite Heq in Hnc. done. }
  assert (aggregate hass self = Raise InvalidOperation ∨
          aggregate hass self = Raise Overflow) as Hagg.
  { unfold aggregate.
    destruct (py_sum_unparseable
                (State.state <$> rem_available (unit_check_result hass self))
                (NInt 0) st) as [-> | ->]; auto.
    by apply (list_elem_of_fmap_2 State.state _ state). }
  assert (∃ removed, rem_log (unit_check_result hass self)
            = mismatch_error self <$> removed ∧
            Forall (λ state, ¬ compatible self state) removed) as Hl.
  { exists removed. split; [done|]. eapply Forall_impl; [done|]. by intros ? []. }
  destruct Hagg as [-> | ->]; simpl; auto.
Qed.

Lemma unparseable_state_raises_witness :
  let o := on_state_change {["sensor.a" := reading "on" "W"]}
             (example_group ["sensor.a"] (Some 2)) "sensor.a" in
  (raised o = Some InvalidOperation ∨ raised o = Some Overflow) ∧
  _attr_native_value (self_after o) = None ∧
  "sensor.a" ∈ _entities (self_after o) ∧
  ∃ removed, effects o = mismatch_error (example_group ["sensor.a"] (Some 2)) <$> removed ∧
             Forall (λ state, ¬ compatible (example_group ["sensor.a"] (Some 2)) state) removed.
Proof.
  apply (unparseable_state_raises {["sensor.a" := reading "on" "W"]}
           (example_group ["sensor.a"] (Some 2)) "sensor.a" "sensor.a" "on"
           {[ATTR_UNIT_OF_MEASUREMENT := "W"]}).
  - by eexists.
  - by repeat constructor.
  - apply (bool_decide_unpack _). vm_compute. exact I.
  - reflexivity.
  - apply (bool_decide_unpack _). vm_compute. exact I.
  - reflexivity.
  - reflexivity.
Defined.

(** ** Members with another unit *)

(** C3: where two members with another unit follow each other, the loop
    removes the first and steps over the second: "sensor.b", in kW in a
    group in W, stays a member, its 7 is the published sum of that same
    recomputation, and only "sensor.a" is logged. *)
Theorem adjacent_incompatible_member_kept :
  let self := example_group ["sensor.a"; "sensor.b"] (Some 2) in
  let o := on_state_change
             {["sensor.a" := reading "5" "kW"; "sensor.b" := reading "7" "kW"]}
             self "sensor.a" in
  _entities (self_after o) = ["sensor.b"] ∧
  _attr_native_value (self_after o) = Some (PyDecimal (Dec.DFinite false 700 (-2))) ∧
  effects o =
    [mismatch_error self
       (State.mk "sensor.a" "5" {[ATTR_UNIT_OF_MEASUREMENT := "kW"]});
     ScheduleUpdateHaState true] ∧
  raised o = None.
Proof. vm_compute. done. Qed.

(** ** Members without an available state *)

Lemma unit_check_set_entities self l fuel i available_states entities log :
  unit_check (set_entities l self) fuel i available_states entities log =
  unit_check self fuel i available_states entities log.
Proof.
  revert i available_states entities log.
  induction fuel as [|fuel IH]; intros i avail ents log; [done|].
  simpl. destruct (avail !! i) as [state|]; [|done].
  destruct (_attr_native_unit_of_measurement self); [|done].
  case_decide; [|apply IH].
  destruct (list_remove state avail); [|done].
  destruct (list_remove (State.entity_id state) ents); [|done].
  apply IH.
Qed.

(** The loop does the same over a member list from which members that own
    none of the states are dropped, and it leaves those members alone. *)
Lemma unit_check_filter self (P : string → Prop) `{!∀ e, Decision (P e)}
    fuel i available_states entities log r :
  Forall (λ state, P (State.entity_id state)) available_states →
  unit_check self fuel i available_states entities log = Some r →
  unit_check self fuel i available_states (filter P entities) log =
    Some (Build_Removal (rem_available r) (filter P (rem_entities r))
            (rem_log r) (rem_raised r)) ∧
  filter (λ e, ¬ P e) (rem_entities r) = filter (λ e, ¬ P e) entities.
Proof.
  revert i available_states entities log.
  induction fuel as [|fuel IH]; intros i avail ents log HP; [done|].
  simpl. destruct (avail !! i) as [state|] eqn:Hi; [|by intros [= <-]].
  destruct (_attr_native_unit_of_measurement self); [|by intros [= <-]].
  case_decide; [|by apply IH].
  destruct (list_remove state avail) as [avail'|] eqn:Ha; [|by intros [= <-]].
  assert (P (State.entity_id state)) as HPs.
  { rewrite Forall_forall in HP. apply HP. by eapply list_elem_of_lookup_2. }
  assert (Forall (λ state, P (State.entity_id state)) avail') as HP'.
  { rewrite Forall_forall in HP. apply Forall_forall. intros st Hst.
    apply HP. by eapply list_remove_elem_of. }
  destruct (list_remove (State.entity_id state) ents) as [ents'|] eqn:He.
  - rewrite (list_remove_filter P _ _ _ He HPs). intros Hr.
    destruct (IH _ _ _ _ HP' Hr) as [-> Hk]. split; [done|].
    rewrite Hk. eapply list_remove_filter_other; [done|]. by intros Hn.
  - rewrite (list_remove_filter_None P _ _ He). by intros [= <-].
Qed.

(** C8: a member for which the state machine holds no state, or whose
    state is the string "unavailable" or the string "unknown", is skipped
    by the recomputation and by it alone: the members of that kind are the
    same, in the same order, before and after, and the recomputation sets
    the same value, issues the same effects and ends the same way as it
    does on the member list without them. *)
Theorem unavailable_members_skipped hass self event :
  let o := on_state_change hass self event in
  let self' := set_entities (filter (available hass) (_entities self)) self in
  let o' := on_state_change hass self' event in
  filter (λ e, ¬ available hass e) (_entities (self_after o))
    = filter (λ e, ¬ available hass e) (_entities self) ∧
  _attr_native_value (self_after o') = _attr_native_value (self_after o) ∧
  effects o' = effects o ∧
  raised o' = raised o ∧
  _entities (self_after o') = filter (available hass) (_entities (self_after o)).
Proof.
  intros o self' o'. subst o o'.
  assert (Forall (λ state, available hass (State.entity_id state))
            (collect_available hass (_entities self))) as Hav.
  { apply Forall_forall. intros state [? ?]%elem_of_collect_available_1.
    apply available_states_get. by exists state. }
  destruct (unit_check_filter self (available hass) _ _ _ _ _ _ Hav
              (run_unit_check_eq self (collect_available hass (_entities self))))
    as [Hrun Hkeep].
  fold (unit_check_result hass self) in Hrun, Hkeep.
  assert (unit_check_result hass self' =
          Build_Removal (rem_available (unit_check_result hass self))
            (filter (available hass) (rem_entities (unit_check_result hass self)))
            (rem_log (unit_check_result hass self))
            (rem_raised (unit_check_result hass self))) as Hr'.
  { unfold unit_check_result at 1, run_unit_check. subst self'.
    change (_entities (set_entities ?l self)) with l.
    rewrite collect_available_filter, unit_check_set_entities, Hrun. done. }
  assert (aggregate hass self' = aggregate hass self) as Hagg.
  { unfold aggregate. rewrite Hr'. done. }
  rewrite !on_state_change_gen, Hagg, Hr'. simpl.
  destruct (rem_raised (unit_check_result hass self)); [done|].
  destruct (aggregate hass self); done.
Qed.

Lemma unavailable_members_skipped_witness :
  let hass : StateMachine :=
    {["sensor.a" := reading "5" "W";
      "sensor.b" := reading "unavailable" "W";
      "sensor.c" := reading "unknown" "W"]} in
  let self :=
    example_group ["sensor.a"; "sensor.b"; "sensor.c"; "sensor.d"] (Some 2) in
  let o := on_state_change hass self "sensor.b" in
  let self' := set_entities (filter (available hass) (_entities self)) self in
  let o' := on_state_change hass self' "sensor.b" in
  filter (λ e, ¬ available hass e) (_entities (self_after o))
    = filter (λ e, ¬ available hass e) (_entities self) ∧
  _attr_native_value (self_after o') = _attr_native_value (self_after o) ∧
  effects o' = effects o ∧
  raised o' = raised o ∧
  _entities (self_after o') = filter (available hass) (_entities (self_after o)).
Proof.
  intros hass self.
  apply (unavailable_members_skipped hass self "sensor.b").
Defined.

(** The values of that example: the member in state "unavailable", the
    one in state "unknown" and the one without a state stay members, the
    recomputation completes, and the 5 of the remaining member is the
    sum. *)
Example unavailable_unknown_and_absent :
  let hass : StateMachine :=
    {["sensor.a" := reading "5" "W";
      "sensor.b" := reading "unavailable" "W";
      "sensor.c" := reading "unknown" "W"]} in
  let self :=
    example_group ["sensor.a"; "sensor.b"; "sensor.c"; "sensor.d"] (Some 2) in
  let o := on_state_change hass self "sensor.b" in
  filter (available hass) (_entities self) = ["sensor.a"] ∧
  _entities (self_after o) = ["sensor.a"; "sensor.b"; "sensor.c"; "sensor.d"] ∧
  raised o = None ∧
  _attr_native_value (self_after o) = Some (PyDecimal (Dec.DFinite false 500 (-2))) ∧
  effects o = [ScheduleUpdateHaState true].
Proof. vm_compute. done. Qed.

(** ** Decimal arithmetic within the precision *)

Module DecFacts.
Import Dec.

Lemma pow10_pos n : 0 ≤ n → 0 < 10 ^ n.
Proof. intros. by apply Z.pow_pos_nonneg. Qed.

Lemma pow10_add a b : 0 ≤ a → 0 ≤ b → 10 ^ (a + b) = 10 ^ a * 10 ^ b.
Proof. intros. by apply Z.pow_add_r. Qed.

Lemma pow10_le a b : 0 ≤ a ≤ b → 10 ^ a ≤ 10 ^ b.
Proof. intros. apply Z.pow_le_mono_r; lia. Qed.

Lemma pow10_lt_inv a b : 0 ≤ b → 10 ^ a < 10 ^ b → a < b.
Proof. intros Hb Hlt. apply (Z.pow_lt_mono_r_iff 10); lia. Qed.

Lemma pow10_ge_1 n : 0 ≤ n → 1 ≤ 10 ^ n.
Proof. intros. pose proof (pow10_pos n). lia. Qed.

Lemma ndigits_fuel_spec fuel c :
  0 < c → c < 10 ^ (Z.of_nat fuel + 1) →
  1 ≤ ndigits_fuel fuel c ∧
  10 ^ (ndigits_fuel fuel c - 1) ≤ c < 10 ^ ndigits_fuel fuel c.
Proof.
  revert c. induction fuel as [|fuel IH]; intros c Hc Hlt.
  - simpl in *. change (10 ^ 0) with 1. change (10 ^ 1) with 10 in *. lia.
  - cbn [ndigits_fuel]. destruct (Z.ltb_spec c 10) as [Hs|Hs].
    + change (10 ^ (1 - 1)) with 1. change (10 ^ 1) with 10. lia.
    + assert (0 < c / 10) as Hq by (apply Z.div_str_pos; lia).
      assert (c / 10 < 10 ^ (Z.of_nat fuel + 1)) as Hq'.
      { apply Z.div_lt_upper_bound; [lia|].
        replace (Z.of_nat (S fuel) + 1) with (1 + (Z.of_nat fuel + 1)) in Hlt by lia.
        rewrite pow10_add in Hlt by lia. change (10 ^ 1) with 10 in Hlt. lia. }
      destruct (IH _ Hq Hq') as (Hn & Hlo & Hhi).
      set (n := ndigits_fuel fuel (c / 10)) in *.
      replace (1 + n - 1) with (1 + (n - 1)) by lia.
      rewrite !pow10_add by lia. change (10 ^ 1) with 10.
      pose proof (Z.div_mod c 10 ltac:(lia)).
      pose proof (Z.mod_pos_bound c 10 ltac:(lia)). lia.
Qed.

Lemma ndigits_spec c :
  0 < c → 1 ≤ ndigits c ∧ 10 ^ (ndigits c - 1) ≤ c < 10 ^ ndigits c.
Proof.
  intros Hc. apply ndigits_fuel_spec; [done|].
  rewrite Z2Nat.id by apply Z.log2_nonneg.
  destruct (Z.log2_spec c Hc) as [_ Hlt].
  eapply Z.lt_le_trans; [done|].
  apply Z.pow_le_mono_l. lia.
Qed.

Lemma ndigits_0 : ndigits 0 = 1.
Proof. reflexivity. Qed.

(** A coefficient below [10^k] has at most [k] digits. *)
Lemma ndigits_le c k : 0 < c → 0 ≤ k → c < 10 ^ k → ndigits c ≤ k.
Proof.
  intros Hc Hk Hlt. destruct (ndigits_spec c Hc) as (Hn & Hlo & _).
  assert (ndigits c - 1 < k); [|lia].
  apply pow10_lt_inv; lia.
Qed.

(** [round_half_even c r] is the integer nearest to [c / 10^r], and the
    even one of the two when [c / 10^r] lies half way. *)
Lemma round_half_even_spec c r :
  0 ≤ c → 0 ≤ r →
  let q := round_half_even c r in
  0 ≤ q ∧ 2 * Z.abs (q * 10 ^ r - c) ≤ 10 ^ r ∧
  (2 * Z.abs (q * 10 ^ r - c) = 10 ^ r → Z.even q = true).
Proof.
  intros Hc Hr. unfold round_half_even.
  pose proof (pow10_pos r Hr) as Hp. set (p := 10 ^ r) in *.
  pose proof (Z.div_mod c p ltac:(lia)) as Hdm.
  pose proof (Z.mod_pos_bound c p Hp) as Hm.
  assert (0 ≤ c / p) as Hq by (apply Z.div_pos; lia).
  set (q := c / p) in *. set (m := c mod p) in *.
  destruct (Z.ltb_spec p (2 * m)) as [H1|H1]; simpl.
  - assert ((q + 1) * p - c = p - m) as -> by lia. lia.
  - destruct (Z.eqb_spec (2 * m) p) as [H2|H2]; simpl.
    + destruct (Z.odd q) eqn:Hodd.
      * assert ((q + 1) * p - c = p - m) as -> by lia.
        repeat split; try lia. intros _.
        rewrite Z.even_add. rewrite <- Z.negb_odd, Hodd. done.
      * assert (q * p - c = - m) as -> by lia.
        repeat split; try lia. intros _. by rewrite <- Z.negb_odd, Hodd.
    + assert (q * p - c = - m) as -> by lia. lia.
Qed.

Lemma round_half_even_small c r :
  0 ≤ c → 1 ≤ r → c < 10 ^ prec → round_half_even c r < 10 ^ prec.
Proof.
  intros Hc Hr Hlt. unfold round_half_even.
  pose proof (pow10_pos r ltac:(lia)) as Hp.
  assert (10 ≤ 10 ^ r) as Hp10.
  { change 10 with (10 ^ 1) at 1. apply pow10_le. lia. }
  set (p := 10 ^ r) in *.
  assert (c / p < 10 ^ 27).
  { apply Z.div_lt_upper_bound; [lia|].
    change (10 ^ prec) with (10 * 10 ^ 27) in Hlt.
    assert (0 < 10 ^ 27) by done. nia. }
  change (10 ^ prec) with (10 * 10 ^ 27). assert (0 < 10 ^ 27) by done.
  set (X := 10 ^ 27) in *. set (Q := c / p) in *. clearbody X Q.
  destruct (_ || _); lia.
Qed.

(** [_fix] leaves alone what fits the precision and the exponent range. *)
Lemma fix_finite_id s c e :
  0 ≤ c → c < 10 ^ prec → Etiny ≤ e ≤ 0 →
  fix_finite s c e = Ok (DFinite s c e).
Proof.
  intros Hc Hlt He. unfold fix_finite.
  destruct (Z.eqb_spec c 0) as [->|Hne].
  - do 2 f_equal. unfold Etiny, Emin, Emax, prec in *. lia.
  - assert (ndigits c ≤ 28) as Hn by (apply ndigits_le; unfold prec in *; lia).
    unfold Etop, Etiny, Emax, Emin, prec in *.
    destruct (Z.ltb_spec (999999 - 28 + 1) (ndigits c + e - 28)); [lia|].
    destruct (Z.ltb_spec e (Z.max (ndigits c + e - 28) (-999999 - 28 + 1)));
      [lia|done].
Qed.

(** The sum of two finite values that fits the precision is exact. *)
Lemma add_exact s1 c1 e1 s2 c2 e2 :
  let e := Z.min e1 e2 in
  let v := signed s1 c1 * 10 ^ (e1 - e) + signed s2 c2 * 10 ^ (e2 - e) in
  Z.abs v < 10 ^ prec → Etiny ≤ e ≤ 0 →
  add (DFinite s1 c1 e1) (DFinite s2 c2 e2) =
    Ok (DFinite (if v =? 0 then s1 && s2 else v <? 0) (Z.abs v) e).
Proof.
  intros e v Hv He. unfold add. simpl. fold e. fold v.
  destruct (Z.eqb_spec v 0) as [Hz|Hz].
  - rewrite Hz. simpl. apply fix_finite_id; [done|done|done].
  - apply fix_finite_id; [lia|done|done].
Qed.

Lemma ndigits_le_prec c : 0 ≤ c → c < 10 ^ prec → 1 ≤ ndigits c ≤ prec.
Proof.
  intros Hc Hlt. destruct (Z.eq_dec c 0) as [->|Hne].
  { rewrite ndigits_0. unfold prec. lia. }
  destruct (ndigits_spec c ltac:(lia)) as (? & _).
  split; [done|]. apply ndigits_le; unfold prec in *; lia.
Qed.

Lemma round_half_even_0 r : 0 ≤ r → round_half_even 0 r = 0.
Proof.
  intros Hr. unfold round_half_even. pose proof (pow10_pos r Hr).
  rewrite Z.div_0_l, Z.mod_0_l by lia. rewrite Z.mul_0_r.
  destruct (Z.ltb_spec (10 ^ r) 0); [lia|].
  destruct (Z.eqb_spec 0 (10 ^ r)) as [|Hne]; [lia|]. reflexivity.
Qed.

Lemma signed_abs v : signed (v <? 0) (Z.abs v) = v.
Proof. unfold signed. destruct (Z.ltb_spec v 0); lia. Qed.

Lemma round_exact_nearest v k : nearest_even v k (round_exact v k).
Proof.
  unfold nearest_even, round_exact.
  destruct (Z.leb_spec 0 k) as [Hk|Hk]; [done|].
  destruct (round_half_even_spec (Z.abs v) (- k) ltac:(lia) ltac:(lia))
    as (Hq & Hnear & Heven).
  set (q := round_half_even (Z.abs v) (- k)) in *.
  set (p := 10 ^ (- k)) in *.
  unfold signed. destruct (Z.ltb_spec v 0) as [Hv|Hv].
  - replace (Z.abs (- q * p - v)) with (Z.abs (q * p - Z.abs v)) by lia.
    split; [done|]. intros Ht. rewrite Z.even_opp. by apply Heven.
  - replace (Z.abs (q * p - v)) with (Z.abs (q * p - Z.abs v)) by lia.
    done.
Qed.

(** Rounding a finite value that fits the precision to [p] digits. *)
Lemma quantize_exact T M p :
  Etiny ≤ M ≤ 0 → Etiny ≤ - p ≤ 0 →
  Z.abs T * 10 ^ (M - Z.min M (- p)) < 10 ^ prec →
  round_ndigits (DFinite (T <? 0) (Z.abs T) M) p =
    Ok (DFinite (T <? 0) (Z.abs (round_exact T (M + p))) (- p)).
Proof.
  intros HM Hp Hlt. unfold round_ndigits.
  assert ((p <? - 2 ^ 63) || (2 ^ 63 <=? p) = false) as ->.
  { unfold Etiny, Emin, prec in Hp. apply orb_false_iff.
    split; [apply Z.ltb_ge|apply Z.leb_gt]; lia. }
  unfold quantize.
  assert (Z.abs T < 10 ^ prec) as HT.
  { pose proof (pow10_ge_1 (M - Z.min M (- p)) ltac:(lia)). nia. }
  destruct (ndigits_le_prec (Z.abs T) ltac:(lia) HT) as [Hn1 Hn2].
  assert ((Etiny <=? - p) && (- p <=? Emax) = true) as ->.
  { apply andb_true_iff. unfold Etiny, Emin, Emax, prec in *.
    split; apply Z.leb_le; lia. }
  simpl negb. cbv iota.
  destruct (Z.eqb_spec (Z.abs T) 0) as [Hz|Hz].
  - assert (T = 0) as -> by lia. simpl.
    rewrite fix_finite_id by (try done; lia).
    unfold round_exact. destruct (Z.leb_spec 0 (M + p)); [done|].
    by rewrite round_half_even_0 by lia.
  - unfold rescale.
    destruct (Z.eqb_spec (Z.abs T) 0) as [|_]; [done|].
    unfold round_exact.
    destruct (Z.leb_spec (- p) M) as [Hle|Hgt].
    + destruct (Z.leb_spec 0 (M + p)) as [_|]; [|lia].
      rewrite Z.min_r in Hlt by lia.
      replace (M - - p) with (M + p) in * by lia.
      pose proof (pow10_pos (M + p) ltac:(lia)) as Hpp.
      assert (0 < Z.abs T * 10 ^ (M + p)) as Hpos by nia.
      destruct (ndigits_le_prec (Z.abs T * 10 ^ (M + p)) ltac:(lia) Hlt)
        as [Hn3 Hn4].
      assert (ndigits (Z.abs T) + M + p ≤ prec) as Hfit.
      { destruct (ndigits_spec (Z.abs T) ltac:(lia)) as (_ & Hlo & _).
        assert (ndigits (Z.abs T) - 1 + (M + p) < prec); [|lia].
        apply pow10_lt_inv; [done|]. rewrite pow10_add by lia.
        eapply Z.le_lt_trans; [|exact Hlt].
        apply Z.mul_le_mono_nonneg_r; lia. }
      unfold Etiny, Emin, Emax, prec in *.
      destruct (Z.ltb_spec 999999 (ndigits (Z.abs T) + M - 1)); [lia|].
      destruct (Z.ltb_spec 28 (ndigits (Z.abs T) + M - 1 - - p + 1)); [lia|].
      destruct (Z.ltb_spec 999999 (ndigits (Z.abs T * 10 ^ (M + p)) + - p - 1));
        [lia|].
      destruct (Z.ltb_spec 28 (ndigits (Z.abs T * 10 ^ (M + p)))); [lia|].
      rewrite fix_finite_id by (unfold Etiny, Emin, prec; lia).
      do 2 f_equal. rewrite Z.abs_mul. lia.
    + destruct (Z.leb_spec 0 (M + p)) as [|_]; [lia|].
      replace (- (M + p)) with (- p - M) by lia.
      pose proof (round_half_even_small (Z.abs T) (- p - M)
                    ltac:(lia) ltac:(lia) HT) as Hsmall.
      destruct (round_half_even_spec (Z.abs T) (- p - M) ltac:(lia) ltac:(lia))
        as (Hq & _).
      set (q := round_half_even (Z.abs T) (- p - M)) in *.
      destruct (ndigits_le_prec q Hq Hsmall) as [Hn3 Hn4].
      unfold Etiny, Emin, Emax, prec in *.
      destruct (Z.ltb_spec 999999 (ndigits (Z.abs T) + M - 1)); [lia|].
      destruct (Z.ltb_spec 28 (ndigits (Z.abs T) + M - 1 - - p + 1)); [lia|].
      destruct (Z.ltb_spec 999999 (ndigits q + - p - 1)); [lia|].
      destruct (Z.ltb_spec 28 (ndigits q)); [lia|].
      rewrite fix_finite_id by (unfold Etiny, Emin, prec; lia).
      do 2 f_equal. unfold signed. destruct (T <? 0); lia.
Qed.

(** Rounding a finite value to an [int]. *)
Lemma round_int_exact s c e :
  0 ≤ c → round_int (DFinite s c e) = Ok (round_exact (signed s c) e).
Proof.
  intros Hc. unfold round_int, rescale, round_exact.
  destruct (Z.eqb_spec c 0) as [->|Hne].
  - f_equal. replace (signed s 0) with 0 by (by destruct s).
    destruct (Z.leb_spec 0 e); [done|].
    by rewrite round_half_even_0 by lia.
  - replace (e - 0) with e by lia. replace (0 - e) with (- e) by lia.
    assert (Z.abs (signed s c) = c) as -> by (unfold signed; destruct s; lia).
    assert ((signed s c <? 0) = s) as ->.
    { unfold signed. destruct s; [apply Z.ltb_lt|apply Z.ltb_ge]; lia. }
    destruct (Z.leb_spec 0 e); f_equal.
    unfold signed. destruct s; lia.
Qed.
End DecFacts.

(** ** The sum in exact decimal arithmetic *)

Section exact_sum.
Import Dec DecFacts.

Lemma common_exp_le m ds : common_exp m ds ≤ m.
Proof.
  revert m. induction ds as [|d ds IH]; intros m; simpl; [done|].
  etrans; [apply IH|]. lia.
Qed.

Lemma magnitude_nonneg m ds :
  Forall (λ d, 0 ≤ fcoeff d) ds → 0 ≤ magnitude m ds.
Proof.
  induction 1 as [|d ds Hd _ IH]; simpl; [done|].
  assert (0 ≤ 10 ^ (fexp d - m)) by (apply Z.pow_nonneg; lia). nia.
Qed.

Lemma exact_total_bound m ds :
  Forall (λ d, 0 ≤ fcoeff d) ds → Z.abs (exact_total m ds) ≤ magnitude m ds.
Proof.
  induction 1 as [|d ds Hd _ IH]; simpl; [done|].
  assert (0 ≤ 10 ^ (fexp d - m)) by (apply Z.pow_nonneg; lia).
  unfold signed. destruct (fsign d); nia.
Qed.

(** One step of the sum, from an accumulator that holds [T * 10^M]. *)
Lemma py_add_exact T M d :
  let e := Z.min M (fexp d) in
  let T' := T * 10 ^ (M - e) + signed (fsign d) (fcoeff d) * 10 ^ (fexp d - e) in
  0 ≤ fcoeff d → Z.abs T' < 10 ^ prec → Etiny ≤ e ≤ 0 →
  py_add (NDecimal (DFinite (T <? 0) (Z.abs T) M)) (to_decimal d) =
    Ok (NDecimal (DFinite (T' <? 0) (Z.abs T') e)).
Proof.
  intros e T' Hc HT' He. unfold py_add, to_decimal.
  pose proof (add_exact (T <? 0) (Z.abs T) M (fsign d) (fcoeff d) (fexp d))
    as Hadd.
  cbv zeta in Hadd. fold e in Hadd. rewrite signed_abs in Hadd. fold T' in Hadd.
  rewrite Hadd by done. simpl. do 3 f_equal.
  destruct (Z.eqb_spec T' 0) as [Hz|Hz]; [|done].
  rewrite Hz. simpl.
  destruct (Z.ltb_spec T 0) as [HT|HT]; [|done]. simpl.
  destruct (fsign d) eqn:Hs; [|done]. exfalso.
  subst T'. unfold signed in Hz.
  assert (0 < 10 ^ (M - e)) by (apply pow10_pos; lia).
  assert (0 ≤ 10 ^ (fexp d - e)) by (apply Z.pow_nonneg; lia). nia.
Qed.

(** The first step of the sum, from the [int] 0. *)
Lemma py_add_int_0 d :
  py_add (NInt 0) (to_decimal d) = py_add (NDecimal (DFinite false 0 0)) (to_decimal d).
Proof.
  unfold py_add, to_decimal, of_int, add. simpl.
  rewrite (Z.min_comm (fexp d) 0), Z.add_comm, andb_comm. done.
Qed.

(** The sum of values whose magnitudes fit the precision together is
    exact, and its exponent is the smallest one. *)
Lemma py_sum_exact strs ds T M :
  Forall2 (λ s d, of_string s = Ok (to_decimal d)) strs ds →
  Forall (λ d, 0 ≤ fcoeff d) ds →
  let m := common_exp M ds in
  let T' := T * 10 ^ (M - m) + exact_total m ds in
  Etiny ≤ m → M ≤ 0 →
  Z.abs T * 10 ^ (M - m) + magnitude m ds < 10 ^ prec →
  py_sum (NDecimal (DFinite (T <? 0) (Z.abs T) M)) strs =
    Ok (NDecimal (DFinite (T' <? 0) (Z.abs T') m)).
Proof.
  intros Hparse. revert T M.
  induction Hparse as [|s d strs ds Hs _ IH]; intros T M Hnn m T' Hm HM Hlt.
  - subst m T'. simpl in *. rewrite Z.sub_diag, Z.mul_1_r, Z.add_0_r. done.
  - apply Forall_cons in Hnn as [Hd Hnn].
    cbn [py_sum]. rewrite Hs. cbn [mbind result_bind].
    set (e := Z.min M (fexp d)).
    assert (m = common_exp e ds) as Hme by done.
    pose proof (common_exp_le e ds) as Hle. rewrite <- Hme in Hle.
    assert (10 ^ (M - m) = 10 ^ (M - e) * 10 ^ (e - m)) as HA.
    { rewrite <- pow10_add by lia. f_equal. lia. }
    assert (10 ^ (fexp d - m) = 10 ^ (fexp d - e) * 10 ^ (e - m)) as HB.
    { rewrite <- pow10_add by lia. f_equal. lia. }
    pose proof (pow10_pos (M - e) ltac:(lia)) as HpA.
    pose proof (pow10_pos (fexp d - e) ltac:(lia)) as HpB.
    pose proof (pow10_pos (e - m) ltac:(lia)) as HpC.
    pose proof (magnitude_nonneg m ds Hnn) as Hmag.
    cbn [magnitude foldr] in Hlt. fold (magnitude m ds) in Hlt.
    rewrite HA, HB in Hlt.
    set (A := 10 ^ (M - e)) in *. set (B := 10 ^ (fexp d - e)) in *.
    set (C := 10 ^ (e - m)) in *.
    set (T1 := T * A + signed (fsign d) (fcoeff d) * B).
    assert (Z.abs T1 ≤ Z.abs T * A + fcoeff d * B) as HT1.
    { subst T1. unfold signed. destruct (fsign d); lia. }
    assert (Z.abs T1 * C + magnitude m ds < 10 ^ prec) as Hlt1 by nia.
    rewrite (py_add_exact T M d); [|done|fold e; fold A B T1; nia|fold e; lia].
    fold e. fold A B T1. cbn [mbind result_bind].
    rewrite (IH T1 e Hnn); [|by rewrite <- Hme|lia|by rewrite <- Hme].
    rewrite <- Hme. fold C.
    assert (T1 * C + exact_total m ds = T') as ->; [|done].
    subst T' T1. cbn [exact_total foldr]. fold (exact_total m ds).
    rewrite HA, HB. fold A B C. ring.
Qed.

(** The same from the [int] 0 that [sum] starts with. *)
Lemma py_sum_exact_0 strs ds :
  Forall2 (λ s d, of_string s = Ok (to_decimal d)) strs ds →
  Forall (λ d, 0 ≤ fcoeff d) ds →
  let m := common_exp 0 ds in
  let T := exact_total m ds in
  Etiny ≤ m → magnitude m ds < 10 ^ prec →
  py_sum (NInt 0) strs =
    Ok (match ds with
        | [] => NInt 0
        | _ => NDecimal (DFinite (T <? 0) (Z.abs T) m)
        end).
Proof.
  intros Hparse Hnn m T Hm Hlt.
  destruct Hparse as [|s d strs ds Hs Hparse]; [done|].
  assert (Forall2 (λ s d, of_string s = Ok (to_decimal d))
            (s :: strs) (d :: ds)) as Hparse' by (by constructor).
  pose proof (py_sum_exact (s :: strs) (d :: ds) 0 0 Hparse' Hnn) as Hsum.
  cbv zeta in Hsum. fold m in Hsum. fold T in Hsum.
  rewrite Z.mul_0_l, !Z.add_0_l in Hsum.
  rewrite <- Hsum by done.
  cbn [py_sum]. rewrite Hs. cbn [mbind result_bind].
  by rewrite py_add_int_0.
Qed.

Lemma span_digits_nonneg acc n l :
  0 ≤ acc → 0 ≤ (span_digits acc n l).1.1.
Proof.
  revert acc n. induction l as [|a l IH]; intros acc n Hacc; [done|].
  simpl. unfold digit_of.
  destruct (Z.leb_spec 48 (code a)); simpl; [|done].
  destruct (code a <=? 57); [|done]. apply IH. lia.
Qed.

(** The coefficient that [Decimal(str)] reads is not negative. *)
Lemma of_string_nonneg str s c e :
  of_string str = Ok (DFinite s c e) → 0 ≤ c.
Proof.
  unfold of_string, of_list.
  set (l := List.filter _ _). clearbody l.
  destruct (match l with
            | [] => (false, l)
            | a :: r => if code a =? 45 then (true, r)
                        else if code a =? 43 then (false, r) else (false, l)
            end) as [sg body].
  destruct (parse_number body) as [[c' e']|] eqn:Hnum.
  - destruct (in_range c' e'); [|done]. intros [= _ <- _].
    unfold parse_number in Hnum.
    pose proof (span_digits_nonneg 0 0 body ltac:(lia)) as H1.
    destruct (span_digits 0 0 body) as [[ci ni] r1]. simpl in H1.
    assert (∃ nf r2,
              match r1 with
              | [] => (ci, 0, r1)
              | a :: r => if code a =? 46 then span_digits ci 0 r else (ci, 0, r1)
              end = (c', nf, r2)) as (nf & r2 & Heq).
    { destruct (match r1 with [] => _ | _ => _ end) as [[c0 nf] r2].
      destruct (ni + nf =? 0); [done|].
      destruct (parse_exponent r2); [|done]. simplify_eq. eauto. }
    destruct r1 as [|a r]; [by injection Heq as <- _ _|].
    destruct (code a =? 46); [|by injection Heq as <- _ _].
    pose proof (span_digits_nonneg ci 0 r H1) as H2.
    rewrite Heq in H2. done.
  - unfold parse_special. repeat case_match; simplify_eq; by intros [=].
Qed.
End exact_sum.

Section exact_sum_scale.
Import Dec DecFacts.

Lemma common_exp_lb m ds : Forall (λ d, common_exp m ds ≤ fexp d) ds.
Proof.
  revert m. induction ds as [|d ds IH]; intros m; [done|].
  simpl. constructor; [|apply IH].
  etrans; [apply common_exp_le|]. lia.
Qed.

(** The magnitudes in a finer unit. *)
Lemma magnitude_scale m m' ds :
  m' ≤ m → Forall (λ d, m ≤ fexp d) ds →
  magnitude m' ds = magnitude m ds * 10 ^ (m - m').
Proof.
  intros Hm. induction 1 as [|d ds Hd _ IH]; simpl; [done|].
  fold (magnitude m' ds). fold (magnitude m ds). rewrite IH.
  replace (fexp d - m') with ((fexp d - m) + (m - m')) by lia.
  rewrite pow10_add by lia. ring.
Qed.
End exact_sum_scale.

(** ** The loop when no two incompatible states follow each other *)

Lemma unit_check_available self fuel pre post entities log r :
  has_unit self →
  Forall (compatible self) pre →
  no_adjacent_incompatible self post →
  State.entity_id <$> (pre ++ post) ⊆+ entities →
  unit_check self fuel (length pre) (pre ++ post) entities log = Some r →
  rem_available r = pre ++ filter (compatible self) post ∧
  rem_log r =
    log ++ (mismatch_error self <$> filter (λ state, ¬ compatible self state) post).
Proof.
  intros Hunit. revert pre post entities log.
  induction fuel as [|fuel IH]; intros pre post ents log Hpre Hadj Hsub; [done|].
  destruct post as [|x post].
  { simpl. rewrite lookup_ge_None_2 by (rewrite length_app; simpl; lia).
    intros [= <-]. simpl. by rewrite !app_nil_r. }
  assert ((pre ++ x :: post) !! length pre = Some x) as Hi
    by apply list_lookup_middle, eq_refl.
  destruct (decide (compatible self x)) as [Hc|Hc].
  - rewrite (unit_check_step_compatible _ _ _ _ _ _ x Hi Hunit Hc).
    rewrite (cons_middle x pre post), app_assoc.
    replace (S (length pre)) with (length (pre ++ [x]))
      by (rewrite length_app; simpl; lia).
    intros Hr. apply IH in Hr as [-> ->].
    + rewrite filter_cons_True, filter_cons_False by auto.
      by rewrite <- app_assoc.
    + apply Forall_app. split; [done|]. by constructor.
    + by destruct Hadj.
    + by rewrite <- app_assoc.
  - assert (x ∉ pre) as Hx.
    { intros Hin. rewrite Forall_forall in Hpre. by apply Hc, Hpre. }
    pose proof (list_remove_app_fresh x pre post Hx) as Ha.
    assert (State.entity_id x ∈ ents) as Hid.
    { eapply elem_of_submseteq; [|done]. apply list_elem_of_fmap_2.
      apply elem_of_app. right. by left. }
    destruct (list_remove_is_Some _ ents Hid) as [ents' He].
    rewrite (unit_check_step_incompatible _ _ _ _ _ _ x _ _ Hi Hunit Hc Ha He).
    assert (State.entity_id <$> (pre ++ post) ⊆+ ents') as Hsub'.
    { apply (submseteq_app_inv_l _ _ [State.entity_id x]). simpl.
      rewrite <- (list_remove_perm _ _ _ He), <- (fmap_cons State.entity_id).
      by rewrite <- (list_remove_perm _ _ _ Ha). }
    rewrite filter_cons_False, filter_cons_True by auto.
    destruct post as [|y post].
    + destruct fuel as [|fuel]; [done|]. simpl.
      rewrite lookup_ge_None_2 by (rewrite length_app; simpl; lia).
      intros [= <-]. simpl. by rewrite !app_nil_r.
    + destruct Hadj as [[?|Hy] Hadj]; [done|].
      rewrite (cons_middle y pre post), app_assoc.
      replace (S (length pre)) with (length (pre ++ [y]))
        by (rewrite length_app; simpl; lia).
      intros Hr. apply IH in Hr as [-> ->].
      * rewrite filter_cons_True, filter_cons_False by auto.
        rewrite fmap_cons, <- !app_assoc. done.
      * apply Forall_app. split; [done|]. by constructor.
      * by destruct Hadj.
      * by rewrite <- app_assoc.
Qed.

(** ** The published aggregate *)

Lemma unit_check_result_no_adjacent hass self :
  has_unit self → lower_case_ids self →
  no_adjacent_incompatible self (collect_available hass (_entities self)) →
  rem_available (unit_check_result hass self) = eligible_states hass self ∧
  rem_log (unit_check_result hass self) =
    mismatch_error self <$>
      filter (λ state, ¬ compatible self state)
        (collect_available hass (_entities self)).
Proof.
  intros Hunit Hlow Hadj.
  apply (unit_check_available self
           (S (length (collect_available hass (_entities self)))) []
           (collect_available hass (_entities self)) (_entities self) []
           (unit_check_result hass self)); [done|done|done| |].
  - by apply sublist_submseteq, collect_available_ids.
  - apply run_unit_check_eq.
Qed.

(** C1, as stated, fails: three members report 1000000000000000000000000000,
    0.5 and 0.5 in the unit of the group; the exact sum rounded to 0 digits
    is 1000000000000000000000000001, the published value is
    1000000000000000000000000000, each addition having been rounded to the 28
    digits of the decimal context. *)
Lemma aggregate_not_exact :
  let self := example_group ["sensor.a"; "sensor.b"; "sensor.c"] (Some 0) in
  let hass : StateMachine :=
    {["sensor.a" := reading "1000000000000000000000000000" "W";
      "sensor.b" := reading "0.5" "W";
      "sensor.c" := reading "0.5" "W"]} in
  let ds := [Fin false 1000000000000000000000000000 0;
             Fin false 5 (-1); Fin false 5 (-1)] in
  let o := on_state_change hass self "sensor.a" in
  (Dec.of_string ∘ State.state <$> eligible_states hass self) = (Ok ∘ to_decimal <$> ds) ∧
  exact_aggregate ds 0 = 1000000000000000000000000001 ∧
  _attr_native_value (self_after o) =
    Some (PyDecimal (Dec.DFinite false 1000000000000000000000000000 0)).
Proof. vm_compute. done. Qed.

(** C1 (amended): let the group have a unit and member ids in lower case,
    let the eligible members be those with a state that is neither marker
    and has the unit of the group, let no two states with another unit
    follow each other among the available ones, let every eligible state
    be a finite number, let the precision be an integer
    [0 <= p <= 1000026], let no exponent of an eligible value be below
    -1000026, the smallest exponent of the decimal context, and let the
    magnitudes of the eligible values together fit the 28 digits of the
    context at the finer of their exponents and [-p].  Then the
    recomputation completes, and the value it sets and publishes is the
    exact sum of the eligible values, rounded once, after the summation,
    half-even to [p] digits (the [int] 0 when no member is eligible). *)
Theorem aggregate_is_exact_rounded_sum hass self event p ds :
  has_unit self →
  lower_case_ids self →
  _rounding_digits self = Some p →
  0 ≤ p ≤ 1000026 →
  no_adjacent_incompatible self (collect_available hass (_entities self)) →
  Forall2 (λ state d, Dec.of_string (State.state state) = Ok (to_decimal d))
    (eligible_states hass self) ds →
  Dec.Etiny ≤ common_exp 0 ds →
  magnitude (Z.min (common_exp 0 ds) (- p)) ds < 10 ^ Dec.prec →
  let o := on_state_change hass self event in
  raised o = None ∧
  _attr_native_value (self_after o) =
    Some (match ds with
          | [] => PyInt 0
          | _ => PyDecimal
                   (Dec.DFinite (exact_total (common_exp 0 ds) ds <? 0)
                      (Z.abs (exact_aggregate ds p)) (- p))
          end) ∧
  effects o =
    (mismatch_error self <$>
       filter (λ state, ¬ compatible self state)
         (collect_available hass (_entities self)))
    ++ [ScheduleUpdateHaState true].
Proof.
  intros Hunit Hlow Hp Hrange Hadj Hparse Hm Hmag o. subst o.
  destruct (unit_check_result_no_adjacent hass self Hunit Hlow Hadj) as [Hav Hlog].
  set (m := common_exp 0 ds) in *.
  assert (Forall (λ d, 0 ≤ fcoeff d) ds) as Hnn.
  { clear -Hparse. induction Hparse as [|st d sts ds Hd _ IH]; constructor; [|done].
    unfold to_decimal in Hd. by eapply of_string_nonneg. }
  assert (m ≤ 0) as Hm0 by apply common_exp_le.
  pose proof (magnitude_scale m (Z.min m (- p)) ds ltac:(lia)
                (common_exp_lb 0 ds)) as Hscale.
  pose proof (DecFacts.pow10_ge_1 (m - Z.min m (- p)) ltac:(lia)) as Hge.
  pose proof (magnitude_nonneg m ds Hnn) as Hmag0.
  pose proof (exact_total_bound m ds Hnn) as Htot.
  assert (aggregate hass self =
          Ok (match ds with
              | [] => NInt 0
              | _ => NDecimal
                       (Dec.DFinite (exact_total m ds <? 0)
                          (Z.abs (exact_aggregate ds p)) (- p))
              end)) as Hagg.
  { unfold aggregate. rewrite Hav, Hp.
    rewrite (py_sum_exact_0 (State.state <$> eligible_states hass self) ds).
    - fold m. destruct ds as [|d ds']; cbn [mbind result_bind py_round].
      + unfold int_round. by destruct (Z.leb_spec 0 p); [|lia].
      + rewrite DecFacts.quantize_exact; [done| | |].
        * unfold Dec.Etiny, Dec.Emin, Dec.prec in *. lia.
        * unfold Dec.Etiny, Dec.Emin, Dec.prec in *. lia.
        * rewrite Hscale in Hmag. nia.
    - by apply Forall2_fmap_l.
    - done.
    - done.
    - fold m. rewrite Hscale in Hmag. nia. }
  rewrite on_state_change_eq, Hagg, Hlog by done. simpl.
  repeat split. by destruct ds.
Qed.

Lemma aggregate_is_exact_rounded_sum_witness :
  let self := example_group ["sensor.a"; "sensor.b"; "sensor.c"; "sensor.d"] (Some 2) in
  let hass : StateMachine :=
    {["sensor.a" := reading "0.1" "W";
      "sensor.b" := reading "0.2" "W";
      "sensor.c" := reading "3" "kW";
      "sensor.d" := reading "unavailable" "W"]} in
  let ds := [Fin false 1 (-1); Fin false 2 (-1)] in
  let o := on_state_change hass self "sensor.b" in
  raised o = None ∧
  _attr_native_value (self_after o) =
    Some (match ds with
          | [] => PyInt 0
          | _ => PyDecimal
                   (Dec.DFinite (exact_total (common_exp 0 ds) ds <? 0)
                      (Z.abs (exact_aggregate ds 2)) (- 2))
          end) ∧
  effects o =
    (mismatch_error self <$>
       filter (λ state, ¬ compatible self state)
         (collect_available hass (_entities self)))
    ++ [ScheduleUpdateHaState true].
Proof.
  intros self hass ds.
  apply (aggregate_is_exact_rounded_sum hass self "sensor.b" 2 ds).
  - by eexists.
  - by repeat constructor.
  - reflexivity.
  - lia.
  - vm_compute. auto.
  - assert (eligible_states hass self =
            [State.mk "sensor.a" "0.1" {[ATTR_UNIT_OF_MEASUREMENT := "W"]};
             State.mk "sensor.b" "0.2" {[ATTR_UNIT_OF_MEASUREMENT := "W"]}]) as ->
      by (vm_compute; reflexivity).
    repeat constructor.
  - by vm_compute.
  - by vm_compute.
Defined.

(** The values of that example: 0.1 + 0.2 is published as 0.30. *)
Example aggregate_of_tenths :
  let self := example_group ["sensor.a"; "sensor.b"; "sensor.c"; "sensor.d"] (Some 2) in
  let hass : StateMachine :=
    {["sensor.a" := reading "0.1" "W";
      "sensor.b" := reading "0.2" "W";
      "sensor.c" := reading "3" "kW";
      "sensor.d" := reading "unavailable" "W"]} in
  let o := on_state_change hass self "sensor.b" in
  _attr_native_value (self_after o) = Some (PyDecimal (Dec.DFinite false 30 (-2))) ∧
  _entities (self_after o) = ["sensor.a"; "sensor.b"; "sensor.d"] ∧
  effects o =
    [mismatch_error self
       (State.mk "sensor.c" "3" {[ATTR_UNIT_OF_MEASUREMENT := "kW"]});
     ScheduleUpdateHaState true].
Proof. vm_compute. done. Qed.

(** ** Rounding without a precision *)

Section well_formed.
Import Dec DecFacts.

Lemma fix_finite_well_formed s c e d :
  0 ≤ c → fix_finite s c e = Ok d → well_formed d.
Proof.
  intros Hc. unfold fix_finite.
  destruct (c =? 0); [by intros [= <-]|].
  destruct (Etop <? ndigits c + e - prec); [done|].
  set (exp_min := Z.max (ndigits c + e - prec) Etiny).
  destruct (Z.ltb_spec e exp_min) as [Hlt|]; [|by intros [= <-]].
  destruct (round_half_even_spec c (exp_min - e) Hc ltac:(lia)) as (Hq & _).
  set (q := round_half_even c (exp_min - e)) in *.
  destruct (10 ^ prec <=? q).
  - destruct (Etop <? exp_min + 1); [done|]. intros [= <-]. simpl.
    apply Z.div_pos; lia.
  - destruct (Etop <? exp_min); [done|]. by intros [= <-].
Qed.

Lemma add_well_formed a b d :
  well_formed a → well_formed b → add a b = Ok d → well_formed d.
Proof.
  intros Ha Hb. unfold add.
  destruct (check_nans a b) as [r|] eqn:Hnan.
  - intros ->. unfold check_nans, fix_nan in Hnan.
    destruct a as [? ? ?|?|? [] ?], b as [? ? ?|?|? [] ?]; by simplify_eq.
  - destruct a as [s1 c1 e1|s1|? ? ?], b as [s2 c2 e2|s2|? ? ?];
      try (intros [= <-]; done).
    + simpl in *. destruct (_ =? 0); apply fix_finite_well_formed; lia.
    + destruct (bool_decide (s1 = s2)); by intros [= <-].
Qed.

Lemma py_sum_well_formed states acc d :
  match acc with NDecimal a => well_formed a | NInt _ => True end →
  py_sum acc states = Ok (NDecimal d) → well_formed d.
Proof.
  revert acc. induction states as [|s states IH]; intros acc Hacc.
  { simpl. intros [= ->]. done. }
  simpl. destruct (of_string s) as [x|] eqn:Hx; [|done]. simpl.
  assert (well_formed x) as Hwx.
  { destruct x; try done. by eapply of_string_nonneg. }
  destruct (py_add acc x) as [acc'|] eqn:Hadd; [|done]. simpl.
  apply IH. unfold py_add in Hadd. destruct acc as [z|a].
  - destruct (add x (of_int z)) as [r|] eqn:Hr; [|done].
    cbn in Hadd. assert (acc' = NDecimal r) as -> by congruence.
    change (well_formed r).
    apply (add_well_formed x (of_int z) r Hwx); [simpl; lia|done].
  - destruct (add a x) as [r|] eqn:Hr; [|done].
    cbn in Hadd. assert (acc' = NDecimal r) as -> by congruence.
    change (well_formed r). change (well_formed a) in Hacc.
    exact (add_well_formed a x r Hacc Hwx Hr).
Qed.
End well_formed.

Lemma rounding_digits_None_rounds_to_int hass event self :
  has_unit self → lower_case_ids self →
  _rounding_digits self = None → rounds_to_int hass event self.
Proof.
  intros Hunit Hlow Hnone. unfold rounds_to_int.
  rewrite on_state_change_eq by done.
  unfold aggregate. rewrite Hnone.
  destruct (py_sum _ _) as [[z|d]|e] eqn:Hsum; [done| |done].
  destruct d as [s c x|s|s sig payload]; [|done|done].
  apply py_sum_well_formed in Hsum; [|done].
  change (0 ≤ c) in Hsum.
  cbn [mbind result_bind py_round].
  rewrite DecFacts.round_int_exact by done.
  cbn [mbind result_bind]. split; [done|].
  eexists. split; [done|]. apply DecFacts.round_exact_nearest.
Qed.

(** C10, as stated, fails: a group built from a configuration without a
    precision entry, over one member whose state is the string "NaN", has
    a NaN for a sum; its recomputation raises [ValueError] and sets no
    value, where a group with precision 2 publishes the NaN. *)
Lemma nan_sum_is_not_rounded :
  let sensor_config :=
    {| CONF_UNIQUE_ID := None;
       CONF_POWER_SENSOR_PRECISION := None;
       CONF_ENERGY_SENSOR_PRECISION := None;
       CONF_ENERGY_SENSOR_UNIT_PREFIX := Some KILO |} in
  let hass : StateMachine := {["sensor.a" := reading "NaN" "W"]} in
  let self :=
    (create_grouped_power_sensor (λ _ name, name) (λ _ _ name, "sensor." +:+ name)
       hass "group" sensor_config ["sensor.a"]).1 in
  let o := on_state_change hass self "sensor.a" in
  let o2 := on_state_change hass (example_group ["sensor.a"] (Some 2)) "sensor.a" in
  (_rounding_digits self = None ∧
   py_sum (NInt 0) ["NaN"] = Ok (NDecimal (Dec.DNaN false false 0)) ∧
   raised o = Some ValueError ∧
   _attr_native_value (self_after o) = None ∧
   effects o = []) ∧
  (raised o2 = None ∧
   _attr_native_value (self_after o2) = Some (PyDecimal (Dec.DNaN false false 0))).
Proof. vm_compute. done. Qed.

Section missing_precision.
Variable generate_power_sensor_name : SensorConfig → string → string.
Variable generate_energy_sensor_name : SensorConfig → string → string.
Variable generate_power_sensor_entity_id : StateMachine → SensorConfig → string → string.
Variable generate_energy_sensor_entity_id : StateMachine → SensorConfig → string → string.

(** C10 (amended): a factory that finds no precision entry for its kind
    in the configuration passes [None] as [rounding_digits], so the
    instance does not get the 2 of the constructor.  Where the group has
    a unit, which a power group has and an energy group has when a unit
    prefix is configured, and its member ids are in lower case, every
    recomputation of that instance whose sum is an [int] or a finite
    decimal then sets an [int], the integer nearest to the sum and the
    even one of two equally near; one whose sum is a NaN or an infinity
    raises [ValueError] or [OverflowError], and one whose sum raises ends
    in that exception. *)
Theorem missing_precision_rounds_to_int kind hass0 group_name sensor_config ids
    hass event :
  precision_entry kind sensor_config = None →
  (kind = ENERGY → is_Some (CONF_ENERGY_SENSOR_UNIT_PREFIX sensor_config)) →
  Forall (λ e, str_lower e = e) ids →
  let self :=
    (create_grouped_sensor generate_power_sensor_name generate_energy_sensor_name
       generate_power_sensor_entity_id generate_energy_sensor_entity_id
       kind hass0 group_name sensor_config ids).1 in
  _rounding_digits self = None ∧ rounds_to_int hass event self.
Proof.
  intros Hnone Hprefix Hlow self.
  assert (_rounding_digits self = None) as Hr.
  { subst self. destruct kind; simpl in *; done. }
  split; [done|]. apply rounding_digits_None_rounds_to_int; [| |done].
  - subst self. destruct kind; [by eexists|].
    destruct (Hprefix eq_refl) as [prefix Hp]. unfold has_unit. simpl.
    rewrite Hp. by destruct prefix.
  - subst self. by destruct kind.
Qed.
End missing_precision.

Lemma missing_precision_rounds_to_int_witness :
  let sensor_config :=
    {| CONF_UNIQUE_ID := Some "group";
       CONF_POWER_SENSOR_PRECISION := None;
       CONF_ENERGY_SENSOR_PRECISION := Some 4;
       CONF_ENERGY_SENSOR_UNIT_PREFIX := Some KILO |} in
  let hass : StateMachine :=
    {["sensor.a_power" := reading "2.25" "W";
      "sensor.b_power" := reading "0.25" "W"]} in
  let self :=
    (create_grouped_sensor (λ _ name, name) (λ _ name, name)
       (λ _ _ name, "sensor." +:+ name) (λ _ _ name, "sensor." +:+ name)
       POWER ∅ "group_power" sensor_config
       ["sensor.a_power"; "sensor.b_power"]).1 in
  _rounding_digits self = None ∧ rounds_to_int hass "sensor.b_power" self.
Proof.
  intros sensor_config hass.
  apply (missing_precision_rounds_to_int (λ _ name, name) (λ _ name, name)
           (λ _ _ name, "sensor." +:+ name) (λ _ _ name, "sensor." +:+ name)
           POWER ∅ "group_power" sensor_config
           ["sensor.a_power"; "sensor.b_power"] hass "sensor.b_power").
  - reflexivity.
  - by intros [=].
  - by repeat constructor.
Defined.

(** The values of that example: 2.25 + 0.25 is published as the [int] 2,
    while the same members in a group with precision 2 give 2.50. *)
Example aggregate_without_precision :
  let hass : StateMachine :=
    {["sensor.a_power" := reading "2.25" "W";
      "sensor.b_power" := reading "0.25" "W"]} in
  let members := ["sensor.a_power"; "sensor.b_power"] in
  _attr_native_value
    (self_after (on_state_change hass (example_group members None) "sensor.b_power"))
    = Some (PyInt 2) ∧
  _attr_native_value
    (self_after (on_state_change hass (example_group members (Some 2)) "sensor.b_power"))
    = Some (PyDecimal (Dec.DFinite false 250 (-2))).
Proof. vm_compute. done. Qed.

(** ** What the loop leaves of the member list *)

Section list_facts.
Context {A : Type}.
Implicit Types (l k r : list A).

Lemma sublist_same_length l k :
  l `sublist_of` k → (length k ≤ length l)%nat → l = k.
Proof.
  induction 1 as [|x l k Hs IH|x l k Hs IH]; simpl; intros Hlen; [done| |].
  - f_equal. apply IH. lia.
  - apply sublist_length in Hs. lia.
Qed.

Lemma filter_sublist_mono (Q : A → Prop) `{!∀ a, Decision (Q a)} l k :
  l `sublist_of` k → filter Q l `sublist_of` filter Q k.
Proof.
  induction 1 as [|x l k Hs IH|x l k Hs IH]; [done| |].
  - rewrite !filter_cons. case_decide; [by apply sublist_skip|done].
  - rewrite filter_cons. case_decide; [by apply sublist_cons|done].
Qed.

Lemma filter_Forall_id (Q : A → Prop) `{!∀ a, Decision (Q a)} l :
  Forall Q l → filter Q l = l.
Proof.
  induction 1 as [|x l HQ Hl IH]; [done|].
  by rewrite filter_cons_True, IH.
Qed.

Lemma filter_Forall_not (Q : A → Prop) `{!∀ a, Decision (Q a)} l :
  Forall (λ a, ¬ Q a) l → filter Q l = [].
Proof.
  induction 1 as [|x l HQ Hl IH]; [done|].
  by rewrite filter_cons_False.
Qed.

(** What is left of [l] when only elements outside [Q] were taken from it
    and everything left is in [Q]. *)
Lemma sublist_complement (Q : A → Prop) `{!∀ a, Decision (Q a)} k l r :
  k `sublist_of` l → l ≡ₚ r ++ k → Forall Q k → Forall (λ a, ¬ Q a) r →
  k = filter Q l.
Proof.
  intros Hs Hperm Hk Hr.
  rewrite <- (filter_Forall_id Q k Hk) at 1.
  apply sublist_same_length; [by apply filter_sublist_mono|].
  rewrite Hperm, filter_app, (filter_Forall_not Q r Hr), !(filter_Forall_id Q k Hk).
  done.
Qed.
End list_facts.

Lemma list_remove_fmap {A B} `{EqDecision A, EqDecision B} (f : A → B) x l k :
  (∀ y, y ∈ l → f y = f x → y = x) →
  list_remove x l = Some k → list_remove (f x) (f <$> l) = Some (f <$> k).
Proof.
  revert k. induction l as [|y l IH]; intros k Hinj; [done|].
  rewrite fmap_cons. cbn [list_remove].
  destruct (decide (x = y)) as [->|Hne].
  - intros [= <-]. by rewrite decide_True.
  - destruct (list_remove x l) as [r'|] eqn:Hr; [|done].
    intros [= <-]. rewrite decide_False.
    + rewrite (IH r'); [done| |done]. intros z Hz. apply Hinj. by right.
    + intros Heq. apply Hne. symmetry. apply Hinj; [by left|done].
Qed.

Lemma collect_available_fmap hass entities :
  Forall (λ e, str_lower e = e) entities →
  State.entity_id <$> collect_available hass entities =
  filter (available hass) entities.
Proof.
  induction 1 as [|e entities Hle _ IH]; [done|].
  rewrite collect_available_cons.
  destruct (states_get hass e) as [st|] eqn:He.
  - destruct (decide (State.state st ∉ ignored_states)) as [Hav|Hav].
    + rewrite filter_cons_True by (apply available_states_get; by exists st).
      by rewrite fmap_cons, (states_get_entity_id _ _ _ He), Hle, IH.
    + rewrite filter_cons_False; [done|].
      intros (st' & Hst' & ?)%available_states_get.
      assert (st' = st) as -> by congruence. done.
  - rewrite filter_cons_False; [done|].
    intros (st' & Hst' & ?)%available_states_get. congruence.
Qed.

(** Over states of which each is the one the state machine holds for its
    entity id, the loop removes from the list of ids what it removes from
    the list of states. *)
Lemma unit_check_ids hass self fuel i available_states log r :
  Forall (λ state, states_get hass (State.entity_id state) = Some state)
    available_states →
  unit_check self fuel i available_states
    (State.entity_id <$> available_states) log = Some r →
  rem_entities r = State.entity_id <$> rem_available r.
Proof.
  revert i available_states log.
  induction fuel as [|fuel IH]; intros i avail log Hget; [done|].
  simpl. destruct (avail !! i) as [state|] eqn:Hi; [|by intros [= <-]].
  destruct (_attr_native_unit_of_measurement self); [|by intros [= <-]].
  case_decide; [|by apply IH].
  destruct (list_remove state avail) as [avail'|] eqn:Ha; [|by intros [= <-]].
  rewrite (list_remove_fmap State.entity_id state avail avail'); [| |done].
  - apply IH. apply Forall_forall. intros st Hst.
    rewrite Forall_forall in Hget. apply Hget. by eapply list_remove_elem_of.
  - intros st Hst Heq. rewrite Forall_forall in Hget.
    pose proof (Hget st Hst) as H1.
    pose proof (Hget state ltac:(by eapply list_elem_of_lookup_2)) as H2.
    congruence.
Qed.

(** After the loop, the members with an available state are those whose
    states the loop left. *)
Lemma unit_check_result_ids hass self :
  lower_case_ids self →
  filter (available hass) (rem_entities (unit_check_result hass self)) =
  State.entity_id <$> rem_available (unit_check_result hass self).
Proof.
  intros Hlow.
  assert (Forall (λ state, available hass (State.entity_id state))
            (collect_available hass (_entities self))) as Hav.
  { apply Forall_forall. intros state [? ?]%elem_of_collect_available_1.
    apply available_states_get. by exists state. }
  destruct (unit_check_filter self (available hass) _ _ _ _ _ _ Hav
              (run_unit_check_eq self (collect_available hass (_entities self))))
    as [Hrun _].
  fold (unit_check_result hass self) in Hrun.
  rewrite <- collect_available_fmap in Hrun by done.
  apply (unit_check_ids hass) in Hrun; [done|].
  apply Forall_forall. by intros state [? _]%elem_of_collect_available_1.
Qed.

(** Where no two states with another unit follow each other, the loop
    leaves exactly the members that have no available state with another
    unit. *)
Lemma unit_check_result_entities hass self :
  has_unit self → lower_case_ids self →
  no_adjacent_incompatible self (collect_available hass (_entities self)) →
  rem_entities (unit_check_result hass self) =
  filter (λ e, ¬ incompatible_member hass self e) (_entities self).
Proof.
  intros Hunit Hlow Hadj.
  destruct (unit_check_result_spec hass self Hunit Hlow)
    as (_ & Hsub & _ & removed & Hrem & _ & Hperm & _).
  destruct (unit_check_result_no_adjacent hass self Hunit Hlow Hadj) as [Havail _].
  pose proof (unit_check_result_ids hass self Hlow) as Hids.
  apply (sublist_complement _ _ _ (State.entity_id <$> removed)); [done|done| |].
  - apply Forall_forall. intros e He (st & Hget & Hst & Hnc).
    assert (e ∈ filter (available hass)
                  (rem_entities (unit_check_result hass self))) as Hin.
    { apply list_elem_of_filter. split; [|done].
      apply available_states_get. by exists st. }
    rewrite Hids, Havail in Hin.
    apply list_elem_of_fmap in Hin as (st' & -> & Hst').
    apply list_elem_of_filter in Hst' as [Hc Hst'].
    apply elem_of_collect_available_1 in Hst' as (Hget' & _).
    assert (st' = st) as -> by congruence. done.
  - apply Forall_fmap. eapply Forall_impl; [done|].
    intros state [Hin Hn'] Hn. apply Hn. simpl.
    apply elem_of_collect_available_1 in Hin as [? ?].
    by exists state.
Qed.

(** ** Members with another unit that do not follow each other *)

(** X1: in a group that has a unit and whose member ids are in lower
    case, where no two states with another unit follow each other among
    the available ones, one recomputation removes exactly the members that
    have an available state with another unit, logs one error for each of
    these states in their order, sums the states of the eligible members
    only, and no later operation brings a removed member back. *)
Theorem separated_incompatible_members_removed hass self event :
  has_unit self →
  lower_case_ids self →
  no_adjacent_incompatible self (collect_available hass (_entities self)) →
  let o := on_state_change hass self event in
  let mismatching :=
    filter (λ state, ¬ compatible self state)
      (collect_available hass (_entities self)) in
  _entities (self_after o) =
    filter (λ e, ¬ incompatible_member hass self e) (_entities self) ∧
  match
    summed ← py_sum (NInt 0) (State.state <$> eligible_states hass self);
    py_round summed (_rounding_digits self)
  with
  | Ok v =>
    raised o = None ∧
    _attr_native_value (self_after o) = Some (of_number v) ∧
    effects o = (mismatch_error self <$> mismatching) ++ [ScheduleUpdateHaState true]
  | Raise e =>
    raised o = Some e ∧
    _attr_native_value (self_after o) = _attr_native_value self ∧
    effects o = mismatch_error self <$> mismatching
  end ∧
  ∀ ops e, incompatible_member hass self e → e ∉ _entities (run ops (self_after o)).
Proof.
  intros Hunit Hlow Hadj o mismatching.
  assert (_entities (self_after o) =
          filter (λ e, ¬ incompatible_member hass self e) (_entities self)) as Hents.
  { subst o. rewrite on_state_change_entities.
    by apply unit_check_result_entities. }
  split; [done|]. split.
  - subst o mismatching. rewrite on_state_change_eq by done. unfold aggregate.
    destruct (unit_check_result_no_adjacent hass self Hunit Hlow Hadj) as [-> ->].
    by destruct (_ ≫= _).
  - intros ops e He Hin.
    pose proof (elem_of_sublist _ _ _ Hin (run_entities_sublist ops (self_after o)))
      as Hin'.
    rewrite Hents in Hin'. apply list_elem_of_filter in Hin' as [Hn _]. done.
Qed.

Lemma separated_incompatible_members_removed_witness :
  let self := example_group ["sensor.a"; "sensor.b"; "sensor.c"] (Some 2) in
  let hass : StateMachine :=
    {["sensor.a" := reading "5" "kW";
      "sensor.b" := reading "3" "W";
      "sensor.c" := reading "7" "kW"]} in
  let o := on_state_change hass self "sensor.a" in
  let mismatching :=
    filter (λ state, ¬ compatible self state)
      (collect_available hass (_entities self)) in
  _entities (self_after o) =
    filter (λ e, ¬ incompatible_member hass self e) (_entities self) ∧
  match
    summed ← py_sum (NInt 0) (State.state <$> eligible_states hass self);
    py_round summed (_rounding_digits self)
  with
  | Ok v =>
    raised o = None ∧
    _attr_native_value (self_after o) = Some (of_number v) ∧
    effects o = (mismatch_error self <$> mismatching) ++ [ScheduleUpdateHaState true]
  | Raise e =>
    raised o = Some e ∧
    _attr_native_value (self_after o) = _attr_native_value self ∧
    effects o = mismatch_error self <$> mismatching
  end ∧
  ∀ ops e, incompatible_member hass self e → e ∉ _entities (run ops (self_after o)).
Proof.
  intros self hass.
  apply (separated_incompatible_members_removed hass self "sensor.a").
  - by eexists.
  - by repeat constructor.
  - vm_compute. auto.
Defined.

(** The values of that example: both members in kW are removed and
    logged, and the 3 of the member in W is published. *)
Example separated_members_in_kW :
  let self := example_group ["sensor.a"; "sensor.b"; "sensor.c"] (Some 2) in
  let o := on_state_change
             {["sensor.a" := reading "5" "kW";
               "sensor.b" := reading "3" "W";
               "sensor.c" := reading "7" "kW"]}
             self "sensor.a" in
  _entities (self_after o) = ["sensor.b"] ∧
  _attr_native_value (self_after o) = Some (PyDecimal (Dec.DFinite false 300 (-2))) ∧
  effects o =
    [mismatch_error self
       (State.mk "sensor.a" "5" {[ATTR_UNIT_OF_MEASUREMENT := "kW"]});
     mismatch_error self
       (State.mk "sensor.c" "7" {[ATTR_UNIT_OF_MEASUREMENT := "kW"]});
     ScheduleUpdateHaState true].
Proof. vm_compute. done. Qed.

(** ** The exceptions of a recomputation *)

Lemma quantize_raises a exp e :
  Dec.quantize a exp = Raise e → e = InvalidOperation ∨ e = Overflow.
Proof.
  unfold Dec.quantize.
  repeat case_match; try (intros [= <-]; by auto);
    intros ?%fix_finite_raises; auto.
Qed.

Lemma py_sum_raises states acc e :
  py_sum acc states = Raise e → e = InvalidOperation ∨ e = Overflow.
Proof.
  revert acc. induction states as [|s states IH]; intros acc; [done|].
  simpl. destruct (Dec.of_string s) as [d|e'] eqn:Hd.
  - simpl. destruct (py_add acc d) as [acc'|e'] eqn:Hadd; simpl.
    + apply IH.
    + intros [= <-]. by eapply py_add_raises.
  - intros [= <-]. left. by eapply of_string_raises.
Qed.

Lemma round_ndigits_raises a p e :
  - 2 ^ 63 ≤ p < 2 ^ 63 →
  Dec.round_ndigits a p = Raise e → e = InvalidOperation ∨ e = Overflow.
Proof.
  intros Hp. unfold Dec.round_ndigits.
  assert ((p <? - 2 ^ 63) || (2 ^ 63 <=? p) = false) as ->.
  { apply orb_false_iff. split; [apply Z.ltb_ge|apply Z.leb_gt]; lia. }
  apply quantize_raises.
Qed.

(** X2: in a group that has a unit and whose member ids are in lower
    case, with a precision configured that fits 64 bits, a recomputation
    ends in no other exception than the two signals that the decimal
    context traps: the comparison finds the unit it reads, the two
    [remove] calls of the loop find what they remove, and [round] with
    such a number of digits raises no [ValueError] and no
    [OverflowError]. *)
Theorem recomputation_raises_decimal_signals hass self event p e :
  has_unit self →
  lower_case_ids self →
  _rounding_digits self = Some p →
  - 2 ^ 63 ≤ p < 2 ^ 63 →
  raised (on_state_change hass self event) = Some e →
  e = InvalidOperation ∨ e = Overflow.
Proof.
  intros Hunit Hlow Hp Hrange. rewrite on_state_change_eq by done.
  unfold aggregate. rewrite Hp.
  destruct (py_sum _ _) as [summed|e'] eqn:Hsum.
  - cbn [mbind result_bind]. destruct summed as [z|d]; [done|].
    cbn [py_round]. destruct (Dec.round_ndigits d p) as [r|e'] eqn:Hr; [done|].
    cbn [mbind result_bind]. intros [= <-]. by eapply round_ndigits_raises.
  - cbn [mbind result_bind]. intros [= <-]. by eapply py_sum_raises.
Qed.

Lemma recomputation_raises_decimal_signals_witness :
  let self := example_group ["sensor.a"; "sensor.b"] (Some 2) in
  let hass : StateMachine :=
    {["sensor.a" := reading "Infinity" "W";
      "sensor.b" := reading "-Infinity" "W"]} in
  raised (on_state_change hass self "sensor.a") = Some InvalidOperation ∧
  (InvalidOperation = InvalidOperation ∨ InvalidOperation = Overflow).
Proof.
  intros self hass.
  assert (raised (on_state_change hass self "sensor.a") = Some InvalidOperation)
    as Hraised by (vm_compute; reflexivity).
  split; [exact Hraised|].
  exact (recomputation_raises_decimal_signals hass self "sensor.a" 2
           InvalidOperation ltac:(by eexists) ltac:(by repeat constructor)
           eq_refl ltac:(lia) Hraised).
Defined.

(** ** A second recomputation over the same states *)

Lemma collect_available_eligible hass self entities :
  collect_available hass
    (filter (λ e, ¬ incompatible_member hass self e) entities) =
  filter (compatible self) (collect_available hass entities).
Proof.
  induction entities as [|e entities IH]; [done|].
  rewrite collect_available_cons.
  destruct (states_get hass e) as [st|] eqn:He.
  - destruct (decide (State.state st ∉ ignored_states)) as [Hav|Hav].
    + destruct (decide (compatible self st)) as [Hc|Hc].
      * rewrite filter_cons_True.
        -- rewrite collect_available_cons, He. cbv beta iota.
           rewrite decide_True by done.
           rewrite filter_cons_True by done. by rewrite IH.
        -- intros (st' & Hst' & _ & Hn).
           assert (st' = st) as -> by congruence. done.
      * rewrite filter_cons_False.
        -- by rewrite filter_cons_False.
        -- intros Hn. apply Hn. by exists st.
    + rewrite filter_cons_True.
      * rewrite collect_available_cons, He. cbv beta iota.
        by rewrite decide_False by done.
      * intros (st' & Hst' & ? & _).
        assert (st' = st) as -> by congruence. done.
  - rewrite filter_cons_True.
    + by rewrite collect_available_cons, He.
    + intros (st' & Hst' & _). congruence.
Qed.

(** Over states that all have the unit of the group the loop changes
    nothing. *)
Lemma unit_check_compatible self fuel i available_states entities log :
  has_unit self →
  Forall (compatible self) available_states →
  (length available_states - i < fuel)%nat →
  unit_check self fuel i available_states entities log =
  Some (Build_Removal available_states entities log None).
Proof.
  intros Hunit Hc. revert i.
  induction fuel as [|fuel IH]; intros i Hlt; [lia|].
  destruct (available_states !! i) as [state|] eqn:Hi.
  - apply lookup_lt_Some in Hi as Hlen.
    rewrite (unit_check_step_compatible _ _ _ _ _ _ state Hi Hunit).
    + apply IH. lia.
    + rewrite Forall_forall in Hc. apply Hc. by eapply list_elem_of_lookup_2.
  - simpl. by rewrite Hi.
Qed.

Lemma unit_check_result_compatible hass self :
  has_unit self →
  Forall (compatible self) (collect_available hass (_entities self)) →
  unit_check_result hass self =
  Build_Removal (collect_available hass (_entities self)) (_entities self) [] None.
Proof.
  intros Hunit Hc. unfold unit_check_result, run_unit_check.
  rewrite unit_check_compatible; [done|done|done|lia].
Qed.

(** With no state to compare the loop does nothing. *)
Lemma unit_check_result_nil hass self :
  collect_available hass (_entities self) = [] →
  unit_check_result hass self = Build_Removal [] (_entities self) [] None.
Proof. intros Hnil. unfold unit_check_result, run_unit_check. by rewrite Hnil. Qed.

(** Without a unit the first comparison raises. *)
Lemma unit_check_result_no_unit hass self :
  _attr_native_unit_of_measurement self = None →
  collect_available hass (_entities self) ≠ [] →
  unit_check_result hass self =
  Build_Removal (collect_available hass (_entities self)) (_entities self) []
    (Some AttributeError).
Proof.
  intros Hu Hne. unfold unit_check_result, run_unit_check.
  destruct (collect_available hass (_entities self)) as [|state states]; [done|].
  by rewrite (unit_check_step_no_unit self _ 0 _ _ _ state).
Qed.

(** X3: in a group whose member ids are in lower case, after a
    recomputation in which no two states with another unit followed each
    other, a second one over the same states removes no member, logs no
    error, and sets the same value or ends in the same exception. *)
Theorem second_recomputation_changes_nothing hass self event event' :
  lower_case_ids self →
  no_adjacent_incompatible self (collect_available hass (_entities self)) →
  let o1 := on_state_change hass self event in
  let o2 := on_state_change hass (self_after o1) event' in
  _entities (self_after o2) = _entities (self_after o1) ∧
  _attr_native_value (self_after o2) = _attr_native_value (self_after o1) ∧
  raised o2 = raised o1 ∧
  effects o2 =
    match raised o1 with
    | None => [ScheduleUpdateHaState true]
    | Some _ => []
    end.
Proof.
  intros Hlow Hadj o1 o2.
  destruct (_attr_native_unit_of_measurement self) as [u|] eqn:Hu.
  - assert (has_unit self) as Hunit by (by exists u).
    pose proof (unit_check_result_entities hass self Hunit Hlow Hadj) as Hents.
    destruct (unit_check_result_no_adjacent hass self Hunit Hlow Hadj) as [Havail _].
    destruct (unit_check_result_spec hass self Hunit Hlow) as (Hraise & _).
    assert (∀ self1,
              _entities self1 = rem_entities (unit_check_result hass self) →
              _attr_native_unit_of_measurement self1 =
                _attr_native_unit_of_measurement self →
              _rounding_digits self1 = _rounding_digits self →
              unit_check_result hass self1 =
                Build_Removal (eligible_states hass self) (_entities self1) [] None ∧
              aggregate hass self1 = aggregate hass self) as Hsettled.
    { intros self1 He Hu1 Hr.
      assert (collect_available hass (_entities self1) = eligible_states hass self)
        as Hcoll.
      { rewrite He, Hents. apply collect_available_eligible. }
      assert (unit_check_result hass self1 =
              Build_Removal (eligible_states hass self) (_entities self1) [] None)
        as Hres.
      { rewrite unit_check_result_compatible; [by rewrite Hcoll| |].
        - unfold has_unit. by rewrite Hu1.
        - rewrite Hcoll. apply Forall_forall.
          intros st [Hc _]%list_elem_of_filter.
          unfold compatible in *. by rewrite Hu1. }
      split; [done|]. unfold aggregate. by rewrite Hres, Hr, Havail. }
    subst o2 o1. rewrite (on_state_change_gen hass self), Hraise.
    destruct (aggregate hass self) as [v|e] eqn:Hagg; cbn [self_after raised].
    + destruct (Hsettled
                  (set_native_value (of_number v)
                     (set_entities (rem_entities (unit_check_result hass self)) self)))
        as [Hres Hagg']; [done..|].
      rewrite on_state_change_gen, Hagg', Hres. done.
    + destruct (Hsettled
                  (set_entities (rem_entities (unit_check_result hass self)) self))
        as [Hres Hagg']; [done..|].
      rewrite on_state_change_gen, Hagg', Hres. done.
  - subst o2 o1.
    destruct (decide (collect_available hass (_entities self) = [])) as [Hnil|Hne].
    + rewrite (on_state_change_gen hass self), (unit_check_result_nil _ _ Hnil).
      cbn [rem_raised rem_entities rem_log].
      assert (∀ self1, _entities self1 = _entities self →
                _rounding_digits self1 = _rounding_digits self →
                aggregate hass self1 = aggregate hass self) as Hsame.
      { intros self1 He Hr. unfold aggregate.
        rewrite !unit_check_result_nil, Hr; [done|done|by rewrite He]. }
      destruct (aggregate hass self) as [v|e] eqn:Hagg; cbn [self_after raised].
      * rewrite on_state_change_gen, unit_check_result_nil, Hsame by done.
        done.
      * rewrite on_state_change_gen, unit_check_result_nil, Hsame by done.
        done.
    + rewrite (on_state_change_gen hass self),
        (unit_check_result_no_unit _ _ Hu Hne).
      cbn [rem_raised rem_entities rem_log self_after raised].
      rewrite on_state_change_gen, unit_check_result_no_unit by done. done.
Qed.

Lemma second_recomputation_changes_nothing_witness :
  let self := example_group ["sensor.a"; "sensor.b"; "sensor.c"] (Some 2) in
  let hass : StateMachine :=
    {["sensor.a" := reading "5" "kW";
      "sensor.b" := reading "3" "W";
      "sensor.c" := reading "7" "kW"]} in
  let o1 := on_state_change hass self "sensor.a" in
  let o2 := on_state_change hass (self_after o1) "sensor.b" in
  _entities (self_after o2) = _entities (self_after o1) ∧
  _attr_native_value (self_after o2) = _attr_native_value (self_after o1) ∧
  raised o2 = raised o1 ∧
  effects o2 =
    match raised o1 with
    | None => [ScheduleUpdateHaState true]
    | Some _ => []
    end.
Proof.
  intros self hass.
  apply (second_recomputation_changes_nothing hass self "sensor.a" "sensor.b").
  - by repeat constructor.
  - vm_compute. auto.
Defined.

(** ** The loop over members that are all different *)

Lemma list_remove_NoDup {A} `{EqDecision A} (x : A) l :
  NoDup l → x ∈ l → list_remove x l = Some (filter (λ y, y ≠ x) l).
Proof.
  induction 1 as [|y l Hy Hl IH]; [by intros ?%elem_of_nil|].
  intros Hx. simpl. destruct (decide (x = y)) as [->|Hne].
  - rewrite filter_cons_False by (by intros ?). f_equal.
    symmetry. apply filter_Forall_id. apply Forall_forall.
    intros z Hz ->. done.
  - apply elem_of_cons in Hx as [?|Hx]; [done|].
    rewrite (IH Hx). by rewrite filter_cons_True by (by intros ->).
Qed.

(** The loop from position [length pre] on, over states without
    duplicates. *)
Lemma unit_check_steps self fuel pre post entities log r :
  has_unit self →
  NoDup (pre ++ post) → NoDup entities →
  State.entity_id <$> (pre ++ post) ⊆+ entities →
  unit_check self fuel (length pre) (pre ++ post) entities log = Some r →
  rem_available r = pre ++ kept_states self post ∧
  rem_entities r =
    filter (λ e, e ∉ State.entity_id <$> removed_states self post) entities ∧
  rem_log r = log ++ (mismatch_error self <$> removed_states self post).
Proof.
  intros Hunit. revert pre post entities log.
  induction fuel as [|fuel IH]; intros pre post ents log Hnd Hne Hsub; [done|].
  destruct post as [|x post].
  { simpl. rewrite lookup_ge_None_2 by (rewrite length_app; simpl; lia).
    intros [= <-]. simpl. rewrite !app_nil_r. split; [done|]. split; [|done].
    symmetry. apply filter_Forall_id, Forall_forall. intros e _.
    apply not_elem_of_nil. }
  assert ((pre ++ x :: post) !! length pre = Some x) as Hi
    by apply list_lookup_middle, eq_refl.
  destruct (decide (compatible self x)) as [Hc|Hc].
  - rewrite (unit_check_step_compatible _ _ _ _ _ _ x Hi Hunit Hc).
    rewrite (cons_middle x pre post), app_assoc.
    replace (S (length pre)) with (length (pre ++ [x]))
      by (rewrite length_app; simpl; lia).
    intros Hr. apply IH in Hr as (-> & -> & ->).
    + cbn [kept_states removed_states]. rewrite !decide_True by done.
      by rewrite <- app_assoc.
    + by rewrite <- app_assoc.
    + done.
    + by rewrite <- app_assoc.
  - assert (x ∉ pre) as Hx.
    { apply NoDup_app in Hnd as (_ & Hdis & _). intros Hin.
      apply (Hdis x Hin). by left. }
    pose proof (list_remove_app_fresh x pre post Hx) as Ha.
    assert (State.entity_id x ∈ ents) as Hid.
    { eapply elem_of_submseteq; [|done]. apply list_elem_of_fmap_2.
      apply elem_of_app. right. by left. }
    pose proof (list_remove_NoDup _ ents Hne Hid) as He.
    rewrite (unit_check_step_incompatible _ _ _ _ _ _ x _ _ Hi Hunit Hc Ha He).
    assert (NoDup (pre ++ post)) as Hnd'.
    { apply NoDup_app in Hnd as (? & Hdis & [_ ?]%NoDup_cons).
      apply NoDup_app. repeat split; [done| |done].
      intros z Hz Hz'. apply (Hdis z Hz). by right. }
    assert (State.entity_id <$> (pre ++ post) ⊆+
            filter (λ y, y ≠ State.entity_id x) ents) as Hsub'.
    { apply (submseteq_app_inv_l _ _ [State.entity_id x]). simpl.
      rewrite <- (list_remove_perm _ _ _ He), <- (fmap_cons State.entity_id).
      by rewrite <- (list_remove_perm _ _ _ Ha). }
    assert (NoDup (filter (λ y, y ≠ State.entity_id x) ents)) as Hne'
      by by apply NoDup_filter.
    assert (∀ l : list State,
              filter (λ e, e ∉ State.entity_id <$> l)
                (filter (λ y, y ≠ State.entity_id x) ents) =
              filter (λ e, e ∉ State.entity_id <$> x :: l) ents) as Hfilter.
    { intros l. rewrite list_filter_filter. apply list_filter_iff.
      intros e. rewrite fmap_cons, not_elem_of_cons. tauto. }
    cbn [kept_states removed_states]. rewrite !decide_False by done.
    destruct post as [|y post].
    + destruct fuel as [|fuel]; [done|]. simpl.
      rewrite lookup_ge_None_2 by (rewrite length_app; simpl; lia).
      intros [= <-]. cbn [rem_available rem_entities rem_log].
      rewrite !app_nil_r. split; [done|]. split; [|done].
      apply list_filter_iff. intros e. rewrite not_elem_of_cons.
      split; [|tauto]. intros ?. split; [done|apply not_elem_of_nil].
    + rewrite (cons_middle y pre post), app_assoc.
      replace (S (length pre)) with (length (pre ++ [y]))
        by (rewrite length_app; simpl; lia).
      intros Hr. apply IH in Hr as (-> & -> & ->).
      * rewrite Hfilter, fmap_cons, <- !app_assoc. done.
      * by rewrite <- app_assoc.
      * done.
      * by rewrite <- app_assoc.
Qed.

Lemma collect_available_NoDup hass entities :
  Forall (λ e, str_lower e = e) entities →
  NoDup entities → NoDup (collect_available hass entities).
Proof.
  intros Hlow Hnd. apply (NoDup_fmap_1 State.entity_id).
  rewrite collect_available_fmap by done. by apply NoDup_filter.
Qed.

Lemma unit_check_result_steps hass self :
  has_unit self → lower_case_ids self →
  NoDup (_entities self) →
  let states := collect_available hass (_entities self) in
  rem_available (unit_check_result hass self) = kept_states self states ∧
  rem_entities (unit_check_result hass self) =
    filter (λ e, e ∉ State.entity_id <$> removed_states self states)
      (_entities self) ∧
  rem_log (unit_check_result hass self) =
    mismatch_error self <$> removed_states self states.
Proof.
  intros Hunit Hlow Hnd states.
  apply (unit_check_steps self (S (length states)) [] states (_entities self) []
           (unit_check_result hass self)).
  - done.
  - by apply collect_available_NoDup.
  - done.
  - by apply sublist_submseteq, collect_available_ids.
  - apply run_unit_check_eq.
Qed.

(** X4: in a group that has a unit, over members that are all different
    and whose ids are in lower case, the loop of one recomputation steps over the state that follows each state it removes:
    the member list afterwards is the one before without the members of
    [removed_states], one error is logged for each of these in order, and
    the sum is formed over [kept_states], which holds every state that
    follows a removed one, whatever its unit. *)
Theorem loop_steps_over_state_after_removal hass self event :
  has_unit self → lower_case_ids self →
  NoDup (_entities self) →
  let o := on_state_change hass self event in
  let states := collect_available hass (_entities self) in
  _entities (self_after o) =
    filter (λ e, e ∉ State.entity_id <$> removed_states self states)
      (_entities self) ∧
  match
    summed ← py_sum (NInt 0) (State.state <$> kept_states self states);
    py_round summed (_rounding_digits self)
  with
  | Ok v =>
    raised o = None ∧
    _attr_native_value (self_after o) = Some (of_number v) ∧
    effects o =
      (mismatch_error self <$> removed_states self states)
      ++ [ScheduleUpdateHaState true]
  | Raise e =>
    raised o = Some e ∧
    _attr_native_value (self_after o) = _attr_native_value self ∧
    effects o = mismatch_error self <$> removed_states self states
  end.
Proof.
  intros Hunit Hlow Hnd o states.
  destruct (unit_check_result_steps hass self Hunit Hlow Hnd)
    as (Hav & Hents & Hlog).
  fold states in Hav, Hents, Hlog.
  subst o. rewrite on_state_change_eq by done. unfold aggregate.
  rewrite Hav, Hlog, <- Hents.
  by destruct (_ ≫= _).
Qed.

Lemma loop_steps_over_state_after_removal_witness :
  let self :=
    example_group ["sensor.a"; "sensor.b"; "sensor.c"; "sensor.d"; "sensor.e"]
      (Some 2) in
  let hass : StateMachine :=
    {["sensor.a" := reading "1" "kW";
      "sensor.b" := reading "2" "kW";
      "sensor.c" := reading "4" "kW";
      "sensor.d" := reading "8" "W";
      "sensor.e" := reading "16" "kW"]} in
  let o := on_state_change hass self "sensor.a" in
  let states := collect_available hass (_entities self) in
  _entities (self_after o) =
    filter (λ e, e ∉ State.entity_id <$> removed_states self states)
      (_entities self) ∧
  match
    summed ← py_sum (NInt 0) (State.state <$> kept_states self states);
    py_round summed (_rounding_digits self)
  with
  | Ok v =>
    raised o = None ∧
    _attr_native_value (self_after o) = Some (of_number v) ∧
    effects o =
      (mismatch_error self <$> removed_states self states)
      ++ [ScheduleUpdateHaState true]
  | Raise e =>
    raised o = Some e ∧
    _attr_native_value (self_after o) = _attr_native_value self ∧
    effects o = mismatch_error self <$> removed_states self states
  end.
Proof.
  intros self hass.
  apply (loop_steps_over_state_after_removal hass self "sensor.a").
  - by eexists.
  - by repeat constructor.
  - apply (bool_decide_unpack _). vm_compute. exact I.
Defined.

(** The values of that example: of the three states in kW that follow
    each other the loop removes the first and the third and steps over
    the second, whose 2 enters the sum with the 8 in W. *)
Example every_other_member_in_kW :
  let self :=
    example_group ["sensor.a"; "sensor.b"; "sensor.c"; "sensor.d"; "sensor.e"]
      (Some 2) in
  let o := on_state_change
             {["sensor.a" := reading "1" "kW";
               "sensor.b" := reading "2" "kW";
               "sensor.c" := reading "4" "kW";
               "sensor.d" := reading "8" "W";
               "sensor.e" := reading "16" "kW"]}
             self "sensor.a" in
  _entities (self_after o) = ["sensor.b"; "sensor.d"] ∧
  _attr_native_value (self_after o) = Some (PyDecimal (Dec.DFinite false 1000 (-2))).
Proof. vm_compute. done. Qed.

(** ** Recomputations that follow each other *)

Lemma incompatible_member_unit hass self self' e :
  _attr_native_unit_of_measurement self' = _attr_native_unit_of_measurement self →
  incompatible_member hass self' e ↔ incompatible_member hass self e.
Proof.
  intros Hu. unfold incompatible_member, compatible. rewrite Hu. done.
Qed.

Lemma on_state_change_unit hass self event :
  _attr_native_unit_of_measurement (self_after (on_state_change hass self event)) =
  _attr_native_unit_of_measurement self.
Proof.
  rewrite on_state_change_gen.
  destruct (rem_raised _); [done|]. by destruct (aggregate hass self).
Qed.

Lemma on_state_change_has_unit hass self event :
  has_unit self → has_unit (self_after (on_state_change hass self event)).
Proof. unfold has_unit. by rewrite on_state_change_unit. Qed.

Lemma on_state_change_lower_case_ids hass self event :
  lower_case_ids self →
  lower_case_ids (self_after (on_state_change hass self event)).
Proof.
  unfold lower_case_ids. rewrite !Forall_forall. intros Hlow e He.
  apply Hlow. eapply elem_of_sublist; [done|].
  apply (perform_entities_sublist (OnStateChange hass event)).
Qed.

(** A loop that has met only states with the unit of the group so far and
    has one with another unit ahead logs at least one error. *)
Lemma unit_check_removes self fuel i available_states entities log r :
  has_unit self →
  State.entity_id <$> available_states ⊆+ entities →
  Forall (compatible self) (take i available_states) →
  Exists (λ state, ¬ compatible self state) available_states →
  unit_check self fuel i available_states entities log = Some r →
  (length log < length (rem_log r))%nat.
Proof.
  intros Hunit. revert i available_states entities log.
  induction fuel as [|fuel IH]; intros i avail ents log Hsub Hpre Hex; [done|].
  destruct (avail !! i) as [state|] eqn:Hi.
  - destruct (decide (compatible self state)) as [Hc|Hc].
    + rewrite (unit_check_step_compatible _ _ _ _ _ _ state Hi Hunit Hc).
      apply IH; [done| |done].
      rewrite (take_S_r _ _ _ Hi). apply Forall_app. split; [done|].
      by constructor.
    + assert (state ∈ avail) as Hin by (by eapply list_elem_of_lookup_2).
      destruct (list_remove_is_Some state avail Hin) as [avail' Ha].
      assert (State.entity_id state ∈ ents) as Hid.
      { eapply elem_of_submseteq; [|done]. by apply list_elem_of_fmap_2. }
      destruct (list_remove_is_Some _ ents Hid) as [ents' He].
      rewrite (unit_check_step_incompatible _ _ _ _ _ _ state _ _ Hi Hunit Hc Ha He).
      intros Hr.
      assert (State.entity_id <$> avail' ⊆+ ents') as Hsub'.
      { apply (submseteq_app_inv_l _ _ [State.entity_id state]). simpl.
        rewrite <- (list_remove_perm _ _ _ He), <- (fmap_cons State.entity_id).
        by rewrite <- (list_remove_perm _ _ _ Ha). }
      destruct (unit_check_inv self _ _ _ _ _ _ Hunit Hr Hsub')
        as (_ & _ & _ & _ & removed & _ & _ & _ & ->).
      rewrite !length_app. simpl. lia.
  - apply lookup_ge_None_1 in Hi. rewrite take_ge in Hpre by done.
    apply Exists_exists in Hex as (state & Hin & Hn).
    rewrite Forall_forall in Hpre. destruct Hn. by apply Hpre.
Qed.

(** The members with an available state of another unit become fewer with
    each recomputation, as long as there is one. *)
Lemma on_state_change_progress hass self event :
  has_unit self → lower_case_ids self →
  let self' := self_after (on_state_change hass self event) in
  let n := length (filter (incompatible_member hass self) (_entities self)) in
  let n' := length (filter (incompatible_member hass self) (_entities self')) in
  (n' ≤ n)%nat ∧ (0 < n → n' < n)%nat.
Proof.
  intros Hunit Hlow self' n n'. subst self' n n'.
  rewrite on_state_change_entities.
  destruct (unit_check_result_spec hass self Hunit Hlow)
    as (_ & _ & _ & removed & Hrem & _ & Hperm & Hlog).
  assert (Forall (incompatible_member hass self) (State.entity_id <$> removed))
    as Hinc.
  { apply Forall_fmap. eapply Forall_impl; [done|].
    intros state [Hin Hn]. simpl.
    apply elem_of_collect_available_1 in Hin as (? & ?). by exists state. }
  assert (length (filter (incompatible_member hass self) (_entities self)) =
          (length removed +
           length (filter (incompatible_member hass self)
                     (rem_entities (unit_check_result hass self))))%nat) as Hcount.
  { rewrite Hperm at 1. rewrite filter_app, length_app.
    by rewrite (filter_Forall_id _ _ Hinc), length_fmap. }
  split; [lia|]. intros Hpos.
  assert (0 < length removed)%nat; [|lia].
  destruct (filter (incompatible_member hass self) (_entities self))
    as [|e l] eqn:Hf; [simpl in Hpos; lia|].
  assert (e ∈ filter (incompatible_member hass self) (_entities self)) as He
    by (rewrite Hf; by left).
  apply list_elem_of_filter in He as [(state & Hget & Hav & Hn) He].
  assert (length (@nil Effect) < length (rem_log (unit_check_result hass self)))%nat
    as Hlen.
  { apply (unit_check_removes self
             (S (length (collect_available hass (_entities self)))) 0
             (collect_available hass (_entities self)) (_entities self)).
    - done.
    - by apply sublist_submseteq, collect_available_ids.
    - by rewrite take_0.
    - apply Exists_exists. exists state. split; [|done].
      apply elem_of_collect_available_gen. by exists e.
    - apply run_unit_check_eq. }
  by rewrite Hlog, length_fmap in Hlen.
Qed.

(** X5: in a group that has a unit and whose member ids are in lower
    case, recomputations over the same states remove all members that
    have an available state with another unit: after as many of them as
    there are such members none is left, in whatever order the states
    come. *)
Theorem repeated_recomputation_removes_all hass self events :
  has_unit self → lower_case_ids self →
  (length (filter (incompatible_member hass self) (_entities self))
     ≤ length events)%nat →
  Forall (λ e, ¬ incompatible_member hass self e)
    (_entities (run (OnStateChange hass <$> events) self)).
Proof.
  revert self.
  induction events as [|event events IH]; intros self Hunit Hlow Hlen.
  - simpl in *. apply Forall_forall. intros e He Hinc.
    assert (e ∈ filter (incompatible_member hass self) (_entities self)) as Hin
      by (by apply list_elem_of_filter).
    destruct (filter _ _); [by apply elem_of_nil in Hin|simpl in Hlen; lia].
  - change (run (OnStateChange hass <$> event :: events) self)
      with (run (OnStateChange hass <$> events)
              (self_after (on_state_change hass self event))).
    set (self' := self_after (on_state_change hass self event)).
    assert (∀ e, incompatible_member hass self' e ↔ incompatible_member hass self e)
      as Hiff.
    { intros e. apply incompatible_member_unit, on_state_change_unit. }
    eapply Forall_impl.
    + apply (IH self').
      { by apply on_state_change_has_unit. }
      { by apply on_state_change_lower_case_ids. }
      rewrite (list_filter_iff _ (incompatible_member hass self)) by done.
      destruct (on_state_change_progress hass self event Hunit Hlow) as [Hle Hlt].
      fold self' in Hle, Hlt. simpl in Hlen. lia.
    + intros e Hn Hinc. apply Hn. by apply Hiff.
Qed.

Lemma repeated_recomputation_removes_all_witness :
  let self := example_group ["sensor.a"; "sensor.b"; "sensor.c"] (Some 2) in
  let hass : StateMachine :=
    {["sensor.a" := reading "5" "kW";
      "sensor.b" := reading "7" "kW";
      "sensor.c" := reading "3" "W"]} in
  Forall (λ e, ¬ incompatible_member hass self e)
    (_entities (run (OnStateChange hass <$> ["sensor.a"; "sensor.b"]) self)).
Proof.
  intros self hass.
  apply (repeated_recomputation_removes_all hass self ["sensor.a"; "sensor.b"]).
  - by eexists.
  - by repeat constructor.
  - vm_compute. lia.
Defined.

(** The values of that example: the first recomputation steps over
    "sensor.b" and publishes 10, the second removes it and publishes 3. *)
Example second_recomputation_removes_the_rest :
  let self := example_group ["sensor.a"; "sensor.b"; "sensor.c"] (Some 2) in
  let hass : StateMachine :=
    {["sensor.a" := reading "5" "kW";
      "sensor.b" := reading "7" "kW";
      "sensor.c" := reading "3" "W"]} in
  let o1 := on_state_change hass self "sensor.a" in
  let o2 := on_state_change hass (self_after o1) "sensor.b" in
  (_entities (self_after o1) = ["sensor.b"; "sensor.c"] ∧
   _attr_native_value (self_after o1) = Some (PyDecimal (Dec.DFinite false 1000 (-2)))) ∧
  (_entities (self_after o2) = ["sensor.c"] ∧
   _attr_native_value (self_after o2) = Some (PyDecimal (Dec.DFinite false 300 (-2)))).
Proof. vm_compute. done. Qed.

(** ** A group without an available member *)

Lemma collect_available_nil hass entities :
  Forall (λ e, ¬ available hass e) entities →
  collect_available hass entities = [].
Proof.
  intros Hall. rewrite <- collect_available_filter.
  by rewrite (filter_Forall_not _ _ Hall).
Qed.

(** X6: when no member has an available state, which includes the group
    without members, and the precision is [None] or not negative, the
    recomputation completes, sets the [int] 0, removes and logs nothing,
    and schedules the update. *)
Theorem no_available_member_publishes_zero hass self event :
  Forall (λ e, ¬ available hass e) (_entities self) →
  (∀ p, _rounding_digits self = Some p → 0 ≤ p) →
  let o := on_state_change hass self event in
  raised o = None ∧
  _attr_native_value (self_after o) = Some (PyInt 0) ∧
  _entities (self_after o) = _entities self ∧
  effects o = [ScheduleUpdateHaState true].
Proof.
  intros Hall Hp o. subst o.
  pose proof (collect_available_nil hass (_entities self) Hall) as Hnil.
  assert (unit_check_result hass self =
          Build_Removal [] (_entities self) [] None) as Hres.
  { by apply unit_check_result_nil. }
  assert (aggregate hass self = Ok (NInt 0)) as Hagg.
  { unfold aggregate. rewrite Hres. cbn.
    destruct (_rounding_digits self) as [p|] eqn:Hr; [|done].
    unfold int_round. specialize (Hp p eq_refl).
    by destruct (Z.leb_spec 0 p); [|lia]. }
  rewrite on_state_change_gen, Hagg, Hres. done.
Qed.

Lemma no_available_member_publishes_zero_witness :
  let self := example_group ["sensor.a"; "sensor.b"; "sensor.c"] (Some 2) in
  let hass : StateMachine :=
    {["sensor.a" := reading "unavailable" "W";
      "sensor.b" := reading "unknown" "kW"]} in
  let o := on_state_change hass self "sensor.a" in
  raised o = None ∧
  _attr_native_value (self_after o) = Some (PyInt 0) ∧
  _entities (self_after o) = _entities self ∧
  effects o = [ScheduleUpdateHaState true].
Proof.
  intros self hass.
  apply (no_available_member_publishes_zero hass self "sensor.a").
  - apply (bool_decide_unpack _). vm_compute. exact I.
  - intros p [= <-]. lia.
Defined.

(** ** The two sensors of one group *)

Lemma string_app_ne (u s : string) : s ≠ "" → u ≠ u +:+ s.
Proof.
  intros Hs. induction u as [|a u IH].
  - change ("" ≠ s). by intros Heq.
  - change (String a u ≠ String a (u +:+ s)). intros [= Heq]. by apply IH.
Qed.

Section group_sensors.
Variable generate_power_sensor_name : SensorConfig → string → string.
Variable generate_energy_sensor_name : SensorConfig → string → string.
Variable generate_power_sensor_entity_id : StateMachine → SensorConfig → string → string.
Variable generate_energy_sensor_entity_id : StateMachine → SensorConfig → string → string.

(** The selection, for the filter list found at [default_filters]. *)
Lemma _get_filtered_entity_ids_by_class_eq heap all_entities default_filters className :
  let qualifies x :=
    forallb (λ f : Entity → bool, f x) (heap !!! default_filters)
    && negb (isinstance x cls_GroupedSensor) && isinstance x className in
  let r := _get_filtered_entity_ids_by_class heap all_entities default_filters className in
  r.2 = ent_entity_id <$> List.filter qualifies all_entities ∧
  (∀ a, a ∈ dom heap → r.1 !! a = heap !! a).
Proof.
  intros qualifies r. subst r. unfold _get_filtered_entity_ids_by_class.
  set (filters := fresh (dom heap)).
  assert (filters ∉ dom heap) as Hfresh by apply is_fresh.
  set (fs := heap !!! default_filters) in *.
  cbn [fst snd]. split.
  - f_equal. apply List.filter_ext. intros x.
    rewrite lookup_total_alt, !lookup_alter_eq, lookup_insert_eq. simpl.
    rewrite !forallb_app. simpl. subst qualifies. simpl.
    by rewrite !andb_true_r.
  - intros a Ha. assert (filters ≠ a) by (by intros ->).
    by rewrite !lookup_alter_ne, lookup_insert_ne.
Qed.

(** X7: [create_group_sensors] gives the power sensor the ids of the
    candidates that pass the filters of the caller, are no [GroupedSensor]
    and are a [PowerSensor], and the energy sensor those that are an
    [EnergySensor], both in the order of the candidates: the filters
    appended for the first selection do not reach the second, and the
    lists that the caller holds are left as they were. *)
Theorem create_group_sensors_members heap group_name sensor_config entities hass
    filters :
  filters ∈ dom heap →
  let qualifies className x :=
    forallb (λ f : Entity → bool, f x) (heap !!! filters)
    && negb (isinstance x cls_GroupedSensor) && isinstance x className in
  let r :=
    create_group_sensors generate_power_sensor_name generate_energy_sensor_name
      generate_power_sensor_entity_id generate_energy_sensor_entity_id
      heap group_name sensor_config entities hass filters in
  _entities r.1.2.1 =
    ent_entity_id <$> List.filter (qualifies cls_PowerSensor) entities ∧
  _entities r.1.2.2 =
    ent_entity_id <$> List.filter (qualifies cls_EnergySensor) entities ∧
  (∀ a, a ∈ dom heap → r.1.1 !! a = heap !! a).
Proof.
  intros Hdom qualifies r.
  subst r. unfold create_group_sensors.
  pose proof (_get_filtered_entity_ids_by_class_eq heap entities filters
                cls_PowerSensor) as (Hp & Hheap1).
  destruct (_get_filtered_entity_ids_by_class heap entities filters cls_PowerSensor)
    as [heap1 power_sensor_ids] eqn:H1.
  cbn [fst snd] in Hp, Hheap1.
  cbn [create_grouped_power_sensor].
  pose proof (_get_filtered_entity_ids_by_class_eq heap1 entities filters
                cls_EnergySensor) as (He & Hheap2).
  destruct (_get_filtered_entity_ids_by_class heap1 entities filters cls_EnergySensor)
    as [heap2 energy_sensor_ids] eqn:H2.
  cbn [fst snd] in He, Hheap2.
  cbn [create_grouped_energy_sensor fst snd].
  assert (heap1 !!! filters = heap !!! filters) as Hsame.
  { by rewrite !lookup_total_alt, Hheap1. }
  rewrite Hsame in He.
  split; [done|]. split; [done|].
  intros a Ha. rewrite Hheap2, Hheap1; [done|done|].
  apply elem_of_dom. rewrite Hheap1 by done. by apply elem_of_dom.
Qed.

(** X8: from one configuration with a unique id that is not empty the
    power sensor gets that id and the energy sensor the id with [_energy]
    appended, so the two differ; without a unique id, or with an empty
    one, neither sensor has one. *)
Theorem group_sensors_unique_ids hass group_name sensor_config power_sensor_ids
    energy_sensor_ids :
  let power_sensor :=
    (create_grouped_power_sensor generate_power_sensor_name
       generate_power_sensor_entity_id hass group_name sensor_config
       power_sensor_ids).1 in
  let energy_sensor :=
    (create_grouped_energy_sensor generate_energy_sensor_name
       generate_energy_sensor_entity_id hass group_name sensor_config
       energy_sensor_ids).1 in
  match CONF_UNIQUE_ID sensor_config with
  | Some (String a u) =>
    _attr_unique_id power_sensor = Some (String a u) ∧
    _attr_unique_id energy_sensor = Some (String a u +:+ "_energy") ∧
    _attr_unique_id power_sensor ≠ _attr_unique_id energy_sensor
  | _ =>
    _attr_unique_id power_sensor = None ∧ _attr_unique_id energy_sensor = None
  end.
Proof.
  intros power_sensor energy_sensor. subst power_sensor energy_sensor.
  unfold create_grouped_power_sensor, create_grouped_energy_sensor. simpl.
  destruct (CONF_UNIQUE_ID sensor_config) as [[|a u]|]; simpl; [done| |done].
  repeat split. intros [= Heq]. by apply (string_app_ne u "_energy").
Qed.
End group_sensors.

Lemma create_group_sensors_members_witness :
  let entities :=
    [{| ent_entity_id := "sensor.a_power"; ent_mro := [cls_PowerSensor] |};
     {| ent_entity_id := "sensor.a_energy"; ent_mro := [cls_EnergySensor] |};
     {| ent_entity_id := "sensor.b_power"; ent_mro := [cls_PowerSensor] |};
     {| ent_entity_id := "sensor.all_power";
        ent_mro := [cls_GroupedSensor; cls_PowerSensor] |}] in
  let heap : FilterHeap :=
    {[7%nat := [λ x : Entity, negb (String.eqb (ent_entity_id x) "sensor.b_power")]]} in
  let filters := 7%nat in
  let qualifies className x :=
    forallb (λ f : Entity → bool, f x) (heap !!! filters)
    && negb (isinstance x cls_GroupedSensor) && isinstance x className in
  let r :=
    create_group_sensors (λ _ name, name) (λ _ name, name)
      (λ _ _ name, "sensor." +:+ name) (λ _ _ name, "sensor." +:+ name)
      heap "group" example_config entities ∅ filters in
  _entities r.1.2.1 =
    ent_entity_id <$> List.filter (qualifies cls_PowerSensor) entities ∧
  _entities r.1.2.2 =
    ent_entity_id <$> List.filter (qualifies cls_EnergySensor) entities ∧
  (∀ a, a ∈ dom heap → r.1.1 !! a = heap !! a).
Proof.
  intros entities heap filters.
  apply (create_group_sensors_members (λ _ name, name) (λ _ name, name)
           (λ _ _ name, "sensor." +:+ name) (λ _ _ name, "sensor." +:+ name)
           heap "group" example_config entities ∅ filters).
  apply elem_of_dom. eexists. apply lookup_singleton_eq.
Defined.

(** The members of that example: the candidate that the filter of the
    caller rejects and the grouped sensor are in neither group. *)
Example members_of_the_two_groups :
  let entities :=
    [{| ent_entity_id := "sensor.a_power"; ent_mro := [cls_PowerSensor] |};
     {| ent_entity_id := "sensor.a_energy"; ent_mro := [cls_EnergySensor] |};
     {| ent_entity_id := "sensor.b_power"; ent_mro := [cls_PowerSensor] |};
     {| ent_entity_id := "sensor.all_power";
        ent_mro := [cls_GroupedSensor; cls_PowerSensor] |}] in
  let r :=
    create_group_sensors (λ _ name, name) (λ _ name, name)
      (λ _ _ name, "sensor." +:+ name) (λ _ _ name, "sensor." +:+ name)
      {[7%nat := [λ x : Entity, negb (String.eqb (ent_entity_id x) "sensor.b_power")]]}
      "group" example_config entities ∅ 7%nat in
  _entities r.1.2.1 = ["sensor.a_power"] ∧
  _entities r.1.2.2 = ["sensor.a_energy"].
Proof. vm_compute. done. Qed.

(** ** The form of the published value *)

Lemma py_sum_decimal states a r :
  py_sum (NDecimal a) states = Ok r → ∃ d, r = NDecimal d.
Proof.
  revert a. induction states as [|s states IH]; intros a; simpl.
  - intros [= <-]. by eexists.
  - destruct (Dec.of_string s) as [x|]; [|done]. simpl.
    destruct (Dec.add a x) as [y|]; [|done]. simpl. apply IH.
Qed.

Lemma py_sum_int states z0 z :
  py_sum (NInt z0) states = Ok (NInt z) → states = [] ∧ z = z0.
Proof.
  destruct states as [|s states]; simpl; [by intros [= <-]|].
  destruct (Dec.of_string s) as [x|]; [|done]. simpl.
  destruct (Dec.add x (Dec.of_int z0)) as [y|]; [|done]. simpl.
  by intros [d [=]]%py_sum_decimal.
Qed.

Section quantize.
Import Dec DecFacts.

Lemma rescale_nonneg s c e exp :
  0 ≤ c → 0 ≤ (rescale s c e exp).1.2 ∧ (rescale s c e exp).2 = exp.
Proof.
  intros Hc. unfold rescale. destruct (c =? 0); [done|].
  destruct (Z.leb_spec exp e); simpl.
  - split; [|done]. pose proof (pow10_pos (e - exp) ltac:(lia)). nia.
  - split; [|done].
    by destruct (round_half_even_spec c (exp - e) Hc ltac:(lia)) as [? _].
Qed.

(** What [quantize] returns for an exponent that is not positive: a
    finite value with that exponent and at most [prec] digits, or a quiet
    NaN. *)
Lemma quantize_form a exp d :
  well_formed a → exp ≤ 0 → quantize a exp = Ok d →
  match d with
  | DFinite _ c e => e = exp ∧ 0 ≤ c < 10 ^ prec
  | DNaN _ signaling _ => signaling = false
  | DInfinity _ => False
  end.
Proof.
  intros Ha Hexp. unfold quantize.
  destruct a as [s c e|s|s [] payload]; try done; [|by intros [= <-]].
  simpl in Ha.
  destruct ((Etiny <=? exp) && (exp <=? Emax)) eqn:Hrange; [|by simpl].
  apply andb_true_iff in Hrange as [Hlo%Z.leb_le _]. simpl negb. cbv iota.
  destruct (Z.eqb_spec c 0) as [->|Hne].
  - rewrite fix_finite_id by (unfold prec; lia). intros [= <-].
    unfold prec. lia.
  - destruct (Emax <? ndigits c + e - 1); [done|].
    destruct (prec <? ndigits c + e - 1 - exp + 1); [done|].
    pose proof (rescale_nonneg s c e exp Ha) as [Hc' He'].
    destruct (rescale s c e exp) as [[s' c'] e']. simpl in Hc', He'. subst e'.
    destruct (Emax <? ndigits c' + exp - 1); [done|].
    destruct (Z.ltb_spec prec (ndigits c')) as [|Hn]; [done|].
    assert (c' < 10 ^ prec) as Hlt.
    { destruct (Z.eq_dec c' 0) as [->|]; [done|].
      destruct (ndigits_spec c' ltac:(lia)) as (? & _ & Hhi).
      eapply Z.lt_le_trans; [done|]. apply pow10_le. lia. }
    rewrite fix_finite_id by lia. intros [= <-]. cbv beta iota. lia.
Qed.
End quantize.

(** X9: with a precision [0 <= p], a recomputation that completes sets
    the [int] 0 (no state was summed), a finite decimal with the exponent
    [-p], that is with exactly [p] digits after the point, and a
    coefficient of at most 28 digits, or a quiet NaN; never an
    infinity. *)
Theorem published_value_has_precision_digits hass self event p :
  _rounding_digits self = Some p → 0 ≤ p →
  let o := on_state_change hass self event in
  raised o = None →
  match _attr_native_value (self_after o) with
  | Some (PyInt z) => z = 0
  | Some (PyDecimal (Dec.DFinite _ c e)) => e = - p ∧ 0 ≤ c < 10 ^ Dec.prec
  | Some (PyDecimal (Dec.DNaN _ signaling _)) => signaling = false
  | _ => False
  end.
Proof.
  intros Hp Hpos o. subst o. rewrite on_state_change_gen.
  destruct (rem_raised _); [done|]. unfold aggregate. rewrite Hp.
  destruct (py_sum _ _) as [[z|d]|e] eqn:Hsum; cbn [mbind result_bind py_round].
  - intros _. cbn. apply py_sum_int in Hsum as [_ ->].
    unfold int_round. by destruct (Z.leb_spec 0 p); [|lia].
  - destruct (Dec.round_ndigits d p) as [r|e] eqn:Hr; cbn; [|done]. intros _.
    unfold Dec.round_ndigits in Hr.
    destruct ((p <? - 2 ^ 63) || (2 ^ 63 <=? p)); [done|].
    apply quantize_form in Hr; [done| |lia].
    by apply py_sum_well_formed in Hsum.
  - done.
Qed.

Lemma published_value_has_precision_digits_witness :
  let self := example_group ["sensor.a"; "sensor.b"] (Some 3) in
  let hass : StateMachine :=
    {["sensor.a" := reading "1.23456" "W";
      "sensor.b" := reading "2E+2" "W"]} in
  let o := on_state_change hass self "sensor.a" in
  match _attr_native_value (self_after o) with
  | Some (PyInt z) => z = 0
  | Some (PyDecimal (Dec.DFinite _ c e)) => e = - 3 ∧ 0 ≤ c < 10 ^ Dec.prec
  | Some (PyDecimal (Dec.DNaN _ signaling _)) => signaling = false
  | _ => False
  end.
Proof.
  intros self hass.
  apply (published_value_has_precision_digits hass self "sensor.a" 3).
  - reflexivity.
  - lia.
  - vm_compute. reflexivity.
Defined.

(** The value of that example: 1.23456 + 2E+2 is published as 201.235. *)
Example aggregate_with_three_digits :
  let o := on_state_change
             {["sensor.a" := reading "1.23456" "W";
               "sensor.b" := reading "2E+2" "W"]}
             (example_group ["sensor.a"; "sensor.b"] (Some 3)) "sensor.a" in
  _attr_native_value (self_after o) = Some (PyDecimal (Dec.DFinite false 201235 (-3))).
Proof. vm_compute. done. Qed.

(** ** The order of the members *)

Lemma collect_available_Permutation hass entities entities' :
  entities ≡ₚ entities' →
  collect_available hass entities ≡ₚ collect_available hass entities'.
Proof.
  induction 1 as [|e l l' _ IH|e e' l|l l' l'' _ IH1 _ IH2]; [done| | |by etrans].
  - rewrite !collect_available_cons.
    destruct (states_get hass e); [|done]. case_decide; [|done].
    by rewrite IH.
  - rewrite !collect_available_cons.
    destruct (states_get hass e), (states_get hass e'); try done;
      repeat case_decide; try done. apply Permutation_swap.
Qed.

Section exact_sum_order.
Import Dec DecFacts.

Lemma exact_total_Permutation m ds ds' :
  ds ≡ₚ ds' → exact_total m ds = exact_total m ds'.
Proof.
  induction 1 as [|d l l' _ IH|d d' l|l l' l'' _ IH1 _ IH2];
    simpl; [done| | |congruence].
  - fold (exact_total m l) (exact_total m l'). by rewrite IH.
  - lia.
Qed.

Lemma magnitude_Permutation m ds ds' :
  ds ≡ₚ ds' → magnitude m ds = magnitude m ds'.
Proof.
  induction 1 as [|d l l' _ IH|d d' l|l l' l'' _ IH1 _ IH2];
    simpl; [done| | |congruence].
  - fold (magnitude m l) (magnitude m l'). by rewrite IH.
  - lia.
Qed.

Lemma common_exp_Permutation m ds ds' :
  ds ≡ₚ ds' → common_exp m ds = common_exp m ds'.
Proof.
  intros Hperm. revert m.
  induction Hperm as [|d l l' _ IH|d d' l|l l' l'' _ IH1 _ IH2]; intros m;
    simpl; [done| | |by rewrite IH1].
  - apply IH.
  - f_equal. lia.
Qed.

(** The sum of finite values that fits the precision, rounded to [p]
    digits. *)
Lemma py_sum_round_exact strs ds p :
  Forall2 (λ s d, of_string s = Ok (to_decimal d)) strs ds →
  0 ≤ p ≤ 1000026 →
  Etiny ≤ common_exp 0 ds →
  magnitude (Z.min (common_exp 0 ds) (- p)) ds < 10 ^ prec →
  (summed ← py_sum (NInt 0) strs; py_round summed (Some p)) =
  Ok (match ds with
      | [] => NInt 0
      | _ => NDecimal
               (DFinite (exact_total (common_exp 0 ds) ds <? 0)
                  (Z.abs (exact_aggregate ds p)) (- p))
      end).
Proof.
  intros Hparse Hrange Hm Hmag.
  set (m := common_exp 0 ds) in *.
  assert (Forall (λ d, 0 ≤ fcoeff d) ds) as Hnn.
  { clear -Hparse. induction Hparse as [|st d sts ds Hd _ IH]; constructor; [|done].
    unfold to_decimal in Hd. by eapply of_string_nonneg. }
  assert (m ≤ 0) as Hm0 by apply common_exp_le.
  pose proof (magnitude_scale m (Z.min m (- p)) ds ltac:(lia)
                (common_exp_lb 0 ds)) as Hscale.
  pose proof (pow10_ge_1 (m - Z.min m (- p)) ltac:(lia)) as Hge.
  pose proof (magnitude_nonneg m ds Hnn) as Hmag0.
  pose proof (exact_total_bound m ds Hnn) as Htot.
  rewrite (py_sum_exact_0 strs ds); [|done|done|done|].
  - fold m. destruct ds as [|d ds']; cbn [mbind result_bind py_round].
    + unfold int_round. by destruct (Z.leb_spec 0 p); [|lia].
    + rewrite quantize_exact; [done| | |].
      * unfold Etiny, Emin, prec in *. lia.
      * unfold Etiny, Emin, prec in *. lia.
      * rewrite Hscale in Hmag. nia.
  - fold m. rewrite Hscale in Hmag. nia.
Qed.
End exact_sum_order.

(** X10: in a group that has a unit and a precision [p] with
    [0 <= p <= 1000026], where all available states have the unit of the
    group and are finite numbers, none with an exponent below [-1000026],
    whose magnitudes together fit the 28 digits of the context at the
    finer of their exponents and [-p], listing the same members in
    another order gives the same published value. *)
Theorem member_order_is_irrelevant hass self entities' event p ds :
  has_unit self →
  _rounding_digits self = Some p →
  0 ≤ p ≤ 1000026 →
  entities' ≡ₚ _entities self →
  Forall (compatible self) (collect_available hass (_entities self)) →
  Forall2 (λ state d, Dec.of_string (State.state state) = Ok (to_decimal d))
    (collect_available hass (_entities self)) ds →
  Dec.Etiny ≤ common_exp 0 ds →
  magnitude (Z.min (common_exp 0 ds) (- p)) ds < 10 ^ Dec.prec →
  let o := on_state_change hass self event in
  let o' := on_state_change hass (set_entities entities' self) event in
  raised o = None ∧ raised o' = None ∧
  _attr_native_value (self_after o') = _attr_native_value (self_after o).
Proof.
  intros Hunit Hp Hrange Hperm Hc Hparse Hm Hmag o o'. subst o o'.
  set (self' := set_entities entities' self).
  assert (has_unit self') as Hunit' by done.
  pose proof (collect_available_Permutation hass _ _ Hperm) as Hcoll.
  change entities' with (_entities self') in Hcoll.
  assert (Forall (compatible self') (collect_available hass (_entities self')))
    as Hc'.
  { rewrite Hcoll. done. }
  symmetry in Hcoll.
  destruct (Permutation_Forall2 Hcoll Hparse) as (ds' & Hds & Hparse').
  assert (aggregate hass self =
          Ok (match ds with
              | [] => NInt 0
              | _ => NDecimal
                       (Dec.DFinite (exact_total (common_exp 0 ds) ds <? 0)
                          (Z.abs (exact_aggregate ds p)) (- p))
              end)) as Hagg.
  { unfold aggregate.
    rewrite (unit_check_result_compatible hass self Hunit Hc), Hp.
    apply py_sum_round_exact; [by apply Forall2_fmap_l|done..]. }
  assert (aggregate hass self' = aggregate hass self) as Hagg'.
  { rewrite Hagg. unfold aggregate.
    rewrite (unit_check_result_compatible hass self' Hunit' Hc').
    change (_rounding_digits self') with (_rounding_digits self). rewrite Hp.
    cbn [rem_available].
    rewrite (py_sum_round_exact _ ds' p); [| by apply Forall2_fmap_l |done| |].
    - unfold exact_aggregate.
      rewrite <- (common_exp_Permutation 0 ds ds' Hds).
      rewrite <- !(exact_total_Permutation _ ds ds' Hds).
      destruct ds as [|d ds].
      + apply Permutation_nil_l in Hds. by subst.
      + destruct ds'; [by apply Permutation_nil_r in Hds|done].
    - by rewrite <- (common_exp_Permutation 0 ds ds' Hds).
    - rewrite <- (common_exp_Permutation 0 ds ds' Hds).
      by rewrite <- (magnitude_Permutation _ ds ds' Hds). }
  rewrite !on_state_change_gen, Hagg', Hagg.
  rewrite (unit_check_result_compatible hass self Hunit Hc).
  rewrite (unit_check_result_compatible hass self' Hunit' Hc'). done.
Qed.

Lemma member_order_is_irrelevant_witness :
  let self := example_group ["sensor.a"; "sensor.b"; "sensor.c"] (Some 2) in
  let hass : StateMachine :=
    {["sensor.a" := reading "0.1" "W";
      "sensor.b" := reading "0.2" "W";
      "sensor.c" := reading "1E+3" "W"]} in
  let o := on_state_change hass self "sensor.a" in
  let o' := on_state_change hass
              (set_entities ["sensor.c"; "sensor.a"; "sensor.b"] self) "sensor.a" in
  raised o = None ∧ raised o' = None ∧
  _attr_native_value (self_after o') = _attr_native_value (self_after o).
Proof.
  intros self hass.
  apply (member_order_is_irrelevant hass self ["sensor.c"; "sensor.a"; "sensor.b"]
           "sensor.a" 2 [Fin false 1 (-1); Fin false 2 (-1); Fin false 1 3]).
  - by eexists.
  - reflexivity.
  - lia.
  - apply (Permutation_cons_append ["sensor.a"; "sensor.b"] "sensor.c").
  - apply (bool_decide_unpack _). vm_compute. exact I.
  - assert (collect_available hass (_entities self) =
            [State.mk "sensor.a" "0.1" {[ATTR_UNIT_OF_MEASUREMENT := "W"]};
             State.mk "sensor.b" "0.2" {[ATTR_UNIT_OF_MEASUREMENT := "W"]};
             State.mk "sensor.c" "1E+3" {[ATTR_UNIT_OF_MEASUREMENT := "W"]}]) as ->
      by (vm_compute; reflexivity).
    repeat constructor.
  - by vm_compute.
  - by vm_compute.
Defined.

(** Beyond the precision of the context the order does matter: the same
    three members give 1000000000000000000000000000 in one order and
    1000000000000000000000000001 in another. *)
Example member_order_beyond_precision :
  let hass : StateMachine :=
    {["sensor.a" := reading "1000000000000000000000000000" "W";
      "sensor.b" := reading "0.5" "W";
      "sensor.c" := reading "0.5" "W"]} in
  let o := on_state_change hass
             (example_group ["sensor.a"; "sensor.b"; "sensor.c"] (Some 0))
             "sensor.a" in
  let o' := on_state_change hass
              (example_group ["sensor.b"; "sensor.c"; "sensor.a"] (Some 0))
              "sensor.a" in
  _attr_native_value (self_after o) =
    Some (PyDecimal (Dec.DFinite false 1000000000000000000000000000 0)) ∧
  _attr_native_value (self_after o') =
    Some (PyDecimal (Dec.DFinite false 1000000000000000000000000001 0)).
Proof. vm_compute. done. Qed.

(** ** Restoration, recomputation and reset in sequence *)

(** The loop reads the unit and the entity id of the group and nothing
    else of it. *)
Lemma unit_check_ext self self' fuel i available_states entities log :
  _attr_native_unit_of_measurement self' = _attr_native_unit_of_measurement self →
  entity_id self' = entity_id self →
  unit_check self' fuel i available_states entities log =
  unit_check self fuel i available_states entities log.
Proof.
  intros Hu Hid. revert i available_states entities log.
  induction fuel as [|fuel IH]; intros i avail ents log; [done|].
  simpl. destruct (avail !! i) as [state|]; [|done].
  unfold mismatch_message. rewrite Hu, Hid.
  destruct (_attr_native_unit_of_measurement self); [|done].
  case_decide; [|apply IH].
  destruct (list_remove state avail); [|done].
  destruct (list_remove (State.entity_id state) ents); [|done].
  apply IH.
Qed.

(** X11: a recomputation does not read the value of the group: after a
    restoration it raises or completes, removes and logs as without it;
    the restored string is replaced when the recomputation completes and
    stays when it raises. *)
Theorem recomputation_ignores_restored_value hass self event last_state :
  let self1 := self_after (async_added_to_hass last_state self) in
  let o := on_state_change hass self event in
  let o1 := on_state_change hass self1 event in
  raised o1 = raised o ∧
  effects o1 = effects o ∧
  _entities (self_after o1) = _entities (self_after o) ∧
  _attr_native_value (self_after o1) =
    match raised o with
    | None => _attr_native_value (self_after o)
    | Some _ => _attr_native_value self1
    end.
Proof.
  intros self1 o o1. subst o o1.
  assert (_attr_native_unit_of_measurement self1 =
          _attr_native_unit_of_measurement self) as Hu
    by (subst self1; by destruct last_state).
  assert (entity_id self1 = entity_id self) as Hid
    by (subst self1; by destruct last_state).
  assert (_entities self1 = _entities self) as He
    by (subst self1; by destruct last_state).
  assert (_rounding_digits self1 = _rounding_digits self) as Hr
    by (subst self1; by destruct last_state).
  assert (unit_check_result hass self1 = unit_check_result hass self) as Hres.
  { unfold unit_check_result, run_unit_check. rewrite He.
    by rewrite (unit_check_ext self self1). }
  assert (aggregate hass self1 = aggregate hass self) as Hagg.
  { unfold aggregate. by rewrite Hres, Hr. }
  rewrite !on_state_change_gen, Hagg, Hres.
  destruct (rem_raised _); [done|]. by destruct (aggregate hass self).
Qed.

Lemma run_snoc ops op self :
  run (ops ++ [op]) self = self_after (perform op (run ops self)).
Proof. unfold run. by rewrite foldl_app. Qed.

(** X12: no sequence of recomputations, restorations and resets changes
    the unit, the precision, the device and state class, the name, the
    entity id, the unique id or the configuration of a group, and its
    [_attr_last_reset] is the time of the latest reset among them, or
    what it was when there was none. *)
Theorem operations_keep_configuration ops self :
  let self' := run ops self in
  _attr_native_unit_of_measurement self' = _attr_native_unit_of_measurement self ∧
  _rounding_digits self' = _rounding_digits self ∧
  _attr_device_class self' = _attr_device_class self ∧
  _attr_state_class self' = _attr_state_class self ∧
  _attr_name self' = _attr_name self ∧
  entity_id self' = entity_id self ∧
  _attr_unique_id self' = _attr_unique_id self ∧
  _sensor_config self' = _sensor_config self ∧
  _attr_last_reset self' =
    match last (reset_times ops) with
    | Some now => Some now
    | None => _attr_last_reset self
    end.
Proof.
  induction ops as [|op ops IH] using rev_ind; [done|].
  rewrite run_snoc. cbv zeta in IH.
  destruct IH as (Hu & Hr & Hd & Hs & Hn & Hi & Hq & Hc & Hl).
  unfold reset_times. rewrite omap_app. fold (reset_times ops).
  destruct op as [hass event|last_state|now]; cbn [perform omap list_omap].
  - rewrite on_state_change_gen, app_nil_r.
    destruct (rem_raised _); [done|].
    by destruct (aggregate hass (run ops self)).
  - rewrite app_nil_r. by destruct last_state.
  - by rewrite last_snoc.
Qed.

(** ** A group without a unit, and a member id with a capital *)

(** X13: in a group whose unit was never assigned, as in the energy
    group built from a configuration without a unit prefix, a
    recomputation that finds a member with an available state ends in
    [AttributeError] at the first comparison of units: the group is left
    as it was, nothing is logged and no update is scheduled. *)
Theorem group_without_unit_raises hass self event :
  _attr_native_unit_of_measurement self = None →
  Exists (available hass) (_entities self) →
  let o := on_state_change hass self event in
  raised o = Some AttributeError ∧ self_after o = self ∧ effects o = [].
Proof.
  intros Hu Hex o. subst o.
  assert (collect_available hass (_entities self) ≠ []) as Hne.
  { apply Exists_exists in Hex as (e & He & Hav).
    apply available_states_get in Hav as (state & Hget & Hav).
    assert (state ∈ collect_available hass (_entities self)) as Hin
      by (apply elem_of_collect_available_gen; by exists e).
    intros Hnil. rewrite Hnil in Hin. by apply elem_of_nil in Hin. }
  rewrite on_state_change_gen, (unit_check_result_no_unit _ _ Hu Hne).
  cbn [rem_raised rem_entities rem_log raised self_after effects].
  by destruct self.
Qed.

Lemma group_without_unit_raises_witness :
  let sensor_config :=
    {| CONF_UNIQUE_ID := None;
       CONF_POWER_SENSOR_PRECISION := None;
       CONF_ENERGY_SENSOR_PRECISION := None;
       CONF_ENERGY_SENSOR_UNIT_PREFIX := None |} in
  let self :=
    GroupedEnergySensor__init__ "group" ["sensor.a_energy"] "sensor.group_energy"
      sensor_config None (Some None) in
  let hass : StateMachine := {["sensor.a_energy" := reading "2.5" "kWh"]} in
  let o := on_state_change hass self "sensor.a_energy" in
  raised o = Some AttributeError ∧ self_after o = self ∧ effects o = [].
Proof.
  intros sensor_config self hass.
  apply (group_without_unit_raises hass self "sensor.a_energy").
  - reflexivity.
  - apply Exists_cons_hd. apply (bool_decide_unpack _). vm_compute. exact I.
Defined.

(** The host stores states under lower-case ids, so the state of a member
    listed as "sensor.A" carries the id "sensor.a".  When its unit is not
    the group's, the loop logs the error and removes the state, and the
    removal of "sensor.a" from the member list raises [ValueError]: the
    member stays and no value is set. *)
Example member_id_with_capital_raises :
  let self := example_group ["sensor.A"] (Some 2) in
  let hass : StateMachine := {["sensor.a" := reading "5" "kW"]} in
  let o := on_state_change hass self "sensor.a" in
  raised o = Some ValueError ∧
  _entities (self_after o) = ["sensor.A"] ∧
  _attr_native_value (self_after o) = None ∧
  effects o =
    [mismatch_error self
       (State.mk "sensor.a" "5" {[ATTR_UNIT_OF_MEASUREMENT := "kW"]})].
Proof. vm_compute. done. Qed.
